(** * TTS_BatchTextSplitter: a shallow embedding of the segmentation node

    Source: [TTS_BatchTextSplitter/TTS_Streaming_Batch_Nodes.py].

    A Python [str] is a sequence of Unicode code points; it is modelled as a
    list of code points ([N]).  Python integers are [Z].  A Python function
    that can raise returns a [result]; the [print] calls are collected in a
    log of [diag] events, so [split_to_batch] lives in a small
    writer-and-error monad. *)

From Stdlib Require Import List ZArith NArith Bool Lia Arith.
Import ListNotations.

Local Open Scope Z_scope.

(** ** Strings *)

Definition char := N.
Definition str := list char.

Definition char_eqb (a b : char) : bool := N.eqb a b.

Fixpoint str_eqb (a b : str) : bool :=
  match a, b with
  | [], [] => true
  | x :: a', y :: b' => char_eqb x y && str_eqb a' b'
  | _, _ => false
  end.

Fixpoint mem_char (c : char) (l : list char) : bool :=
  match l with
  | [] => false
  | x :: l' => char_eqb c x || mem_char c l'
  end.

(** [len] is Python's [len]. *)
Definition len {A} (l : list A) : Z := Z.of_nat (length l).

(** Truth value of a sequence: [if s] / [if not s]. *)
Definition truthy {A} (l : list A) : bool :=
  match l with [] => false | _ :: _ => true end.

(** Code points for which [str.isspace] holds; the same class is [\s] in a
    [str] pattern of the [re] module. *)
Definition isspace (c : char) : bool :=
  (((9 <=? c) && (c <=? 13)) || ((28 <=? c) && (c <=? 32))
   || (c =? 133) || (c =? 160) || (c =? 5760)
   || ((8192 <=? c) && (c <=? 8202))
   || (c =? 8232) || (c =? 8233) || (c =? 8239) || (c =? 8287)
   || (c =? 12288))%N.

Fixpoint lstrip (s : str) : str :=
  match s with
  | [] => []
  | c :: s' => if isspace c then lstrip s' else s
  end.

Definition rstrip (s : str) : str := rev (lstrip (rev s)).

(** [s.strip()] *)
Definition strip (s : str) : str := rstrip (lstrip s).

(** Index normalisation of a slice bound against a sequence of length [n]. *)
Definition clamp (n i : Z) : Z :=
  if i <? 0 then Z.max 0 (i + n) else Z.min i n.

(** [l[lo:hi]] *)
Definition slice {A} (l : list A) (lo hi : Z) : list A :=
  let a := clamp (len l) lo in
  let b := clamp (len l) hi in
  firstn (Z.to_nat (b - a)) (skipn (Z.to_nat a) l).

(** [l[lo:]] *)
Definition slice_from {A} (l : list A) (lo : Z) : list A :=
  skipn (Z.to_nat (clamp (len l) lo)) l.

(** [l[:hi]] *)
Definition slice_to {A} (l : list A) (hi : Z) : list A :=
  firstn (Z.to_nat (clamp (len l) hi)) l.

(** [s.split(sep)] for a one-character separator. *)
Fixpoint split_char (sep : char) (s : str) : list str :=
  match s with
  | [] => [[]]
  | c :: s' =>
      if char_eqb c sep then [] :: split_char sep s'
      else match split_char sep s' with
           | h :: t => (c :: h) :: t
           | [] => [[c]]
           end
  end.

(** ** Exceptions and the diagnostic channel *)

Inductive exn :=
| ValueError       (* range() arg 3 must not be zero *)
| AttributeError   (* 'NoneType' object has no attribute 'strip' *)
| OverflowError    (* re: the repetition number is too large *)
| RecursionError.  (* re: maximum recursion depth exceeded *)

Inductive result (A : Type) :=
| Ok (a : A)
| Raise (e : exn).
Arguments Ok {A} a.
Arguments Raise {A} e.

(** One event per [print] call of the source, with the data the line is
    formatted from; the fixed text of a line is not part of the event (the
    decorative separator lines carry no data and are one constructor).
    [PrintPreview index shown] is the line that shows [index] in brackets and
    then [shown], the part of the segment that is displayed. *)
Inductive diag :=
| PrintRegexError
| PrintTruncated (produced limit : Z)
| PrintRule
| PrintTotal (total : Z)
| PrintPreview (index : Z) (shown : str)
| PrintMore (rest : Z)
| PrintHandoff
| PrintCalls (total : Z).

Definition M (A : Type) : Type := (list diag * result A)%type.

Definition ret {A} (a : A) : M A := ([], Ok a).
(** [print]: the event is appended to the log.  The diagnostic channel is
    taken to accept everything it is given; an output stream whose encoding
    rejects a character of the line is not modelled. *)
Definition print (d : diag) : M unit := ([d], Ok tt).
Definition throw {A} (e : exn) : M A := ([], Raise e).
Definition lift {A} (r : result A) : M A := ([], r).

Definition bind {A B} (m : M A) (f : A -> M B) : M B :=
  match m with
  | (out, Ok a) => let '(out', r) := f a in (out ++ out', r)
  | (out, Raise e) => (out, Raise e)
  end.

Notation "x <- m ;; k" := (bind m (fun x => k))
  (at level 61, m at next level, right associativity).
Notation "m ;;; k" := (bind m (fun _ => k))
  (at level 61, right associativity).

Definition output {A} (m : M A) : list diag := fst m.
Definition outcome {A} (m : M A) : result A := snd m.

(** [range(start, stop, step)] *)
Definition py_range (start stop step : Z) : result (list Z) :=
  if step =? 0 then Raise ValueError
  else
    let count :=
      if 0 <? step
      then (if start <? stop then (stop - start - 1) / step + 1 else 0)
      else (if stop <? start then (start - stop - 1) / (- step) + 1 else 0) in
    Ok (map (fun k => start + Z.of_nat k * step) (seq 0 (Z.to_nat count))).

(** ** The [re] module

    A compiled pattern is what [re.compile] returns: an object with a number
    of capturing groups and a matching behaviour.  The patterns written in
    the source are built from character classes, greedy repetition of a
    class, a one-character look-behind, concatenation and capturing groups;
    [regex] is that fragment (with alternation, so that patterns with
    optional groups can be written) and [run] its backtracking matcher, which
    tries the alternatives in priority order and calls the continuation [k]
    on the first complete match. *)

Inductive cset :=
| OneOf (l : list char)     (* [abc]  *)
| NoneOf (l : list char)    (* [^abc] *)
| Space.                    (* \s     *)

Definition in_cset (cs : cset) (c : char) : bool :=
  match cs with
  | OneOf l => mem_char c l
  | NoneOf l => negb (mem_char c l)
  | Space => isspace c
  end.

Inductive regex :=
| Eps
| Chr (cs : cset)                (* one character of the class *)
| Star (cs : cset)               (* cs*   (greedy) *)
| Plus (cs : cset)               (* cs+   (greedy) *)
| Behind (cs : cset)             (* (?<=cs)        *)
| Cat (r1 r2 : regex)
| Alt (r1 r2 : regex)            (* r1|r2 *)
| Grp (n : nat) (r : regex).     (* capturing group number n *)

Fixpoint groups (r : regex) : nat :=
  match r with
  | Cat r1 r2 | Alt r1 r2 => (groups r1 + groups r2)%nat
  | Grp _ r' => S (groups r')
  | _ => O
  end.

Definition captures := list (nat * (nat * nat)).

Fixpoint capture (n : nat) (cs : captures) : option (nat * nat) :=
  match cs with
  | [] => None
  | (m, sp) :: cs' => if Nat.eqb n m then Some sp else capture n cs'
  end.

(** A continuation receives the text before the cursor (last character
    first), the cursor position, the unread text and the captures so far. *)
Definition cont := str -> nat -> str -> captures -> option (nat * captures).

Fixpoint greedy (cs : cset) (before : str) (i : nat) (rest : str)
         (caps : captures) (k : cont) : option (nat * captures) :=
  match rest with
  | x :: rest' =>
      if in_cset cs x then
        match greedy cs (x :: before) (S i) rest' caps k with
        | Some a => Some a
        | None => k before i rest caps
        end
      else k before i rest caps
  | [] => k before i rest caps
  end.

Fixpoint run (r : regex) (before : str) (i : nat) (rest : str)
         (caps : captures) (k : cont) : option (nat * captures) :=
  match r with
  | Eps => k before i rest caps
  | Chr cs =>
      match rest with
      | x :: rest' => if in_cset cs x then k (x :: before) (S i) rest' caps else None
      | [] => None
      end
  | Star cs => greedy cs before i rest caps k
  | Plus cs =>
      match rest with
      | x :: rest' =>
          if in_cset cs x then greedy cs (x :: before) (S i) rest' caps k else None
      | [] => None
      end
  | Behind cs =>
      match before with
      | p :: _ => if in_cset cs p then k before i rest caps else None
      | [] => None
      end
  | Cat r1 r2 =>
      run r1 before i rest caps (fun b j s c => run r2 b j s c k)
  | Alt r1 r2 =>
      match run r1 before i rest caps k with
      | Some a => Some a
      | None => run r2 before i rest caps k
      end
  | Grp n r' =>
      run r' before i rest caps (fun b j s c => k b j s ((n, (i, j)) :: c))
  end.

(** One match attempt anchored at position [i]: the end of the match and
    its captures.  With [must_advance] a match that ends where it starts is
    rejected and the matcher backtracks, as [re] does right after an empty
    match. *)
Definition attempt (r : regex) (before : str) (i : nat) (rest : str)
           (must_advance : bool) : option (nat * captures) :=
  run r before i rest []
      (fun _ j _ c => if must_advance && Nat.eqb j i then None else Some (j, c)).

(** A compiled pattern: [Pattern.groups] and the anchored match attempt. *)
Record Pattern := {
  p_groups : nat;
  p_attempt : str -> nat -> str -> bool -> option (nat * captures)
}.

(** What compiling a pattern string can do: give a pattern, reject the
    string with [re.error], or raise something else (the parser raises
    [OverflowError] on a repetition count that is too large, as in
    [a{4294967296}]). *)
Inductive compiled :=
| Compiled (p : Pattern)
| PatternError
| CompileRaises (e : exn).

Definition compile_regex (r : regex) : Pattern :=
  {| p_groups := groups r; p_attempt := attempt r |}.

Record mtch := { m_start : nat; m_end : nat; m_caps : captures }.

(** The successive non-overlapping matches of [p], left to right, as
    [finditer], [findall] and [split] enumerate them.  The cursor walks the
    text once; [skip] counts the characters still covered by the last match.
    After an empty match at [i] the search resumes at [i] with
    [must_advance]; otherwise it resumes at the end of the match. *)
Fixpoint scan (p : Pattern) (before : str) (i : nat) (rest : str)
         (skip : nat) : list mtch :=
  let next sk :=
    match rest with
    | [] => []
    | x :: rest' => scan p (x :: before) (S i) rest' sk
    end in
  match skip with
  | S sk => next sk
  | O =>
      match p_attempt p before i rest false with
      | None => next O
      | Some (j, c) =>
          if Nat.eqb j i then
            {| m_start := i; m_end := j; m_caps := c |} ::
            match p_attempt p before i rest true with
            | Some (j', c') =>
                {| m_start := i; m_end := j'; m_caps := c' |} :: next (j' - S i)%nat
            | None => next O
            end
          else {| m_start := i; m_end := j; m_caps := c |} :: next (j - S i)%nat
      end
  end.

Definition finditer (p : Pattern) (text : str) : list mtch := scan p [] O text O.

Definition substr (text : str) (a b : nat) : str := firstn (b - a) (skipn a text).

(** [m.group(n)], [None] when the group did not take part in the match. *)
Definition group (text : str) (m : mtch) (n : nat) : option str :=
  match capture n (m_caps m) with
  | Some (a, b) => Some (substr text a b)
  | None => None
  end.

(** [re.findall(p, text)] for a pattern with at most one group (all the
    source uses): the whole match, or group 1 when the pattern has a group
    (the empty string if it did not take part). *)
Definition re_findall (p : Pattern) (text : str) : list str :=
  map (fun m =>
         if Nat.eqb (p_groups p) 0 then substr text (m_start m) (m_end m)
         else match group text m 1 with Some s => s | None => [] end)
      (finditer p text).

(** [re.split(p, text)]: the text before each match, then the groups of the
    match, and at the end the text after the last match. *)
Fixpoint split_loop (ngroups : nat) (text : str) (last : nat) (ms : list mtch)
  : list (option str) :=
  match ms with
  | [] => [Some (skipn last text)]
  | m :: ms' =>
      Some (substr text last (m_start m))
        :: map (group text m) (seq 1 ngroups)
        ++ split_loop ngroups text (m_end m) ms'
  end.

Definition re_split (p : Pattern) (text : str) : list (option str) :=
  split_loop (p_groups p) text O (finditer p text).

Definition rbind {A B} (r : result A) (f : A -> result B) : result B :=
  match r with
  | Ok a => f a
  | Raise e => Raise e
  end.

(** [[s for s in segs if s.strip()]]; [None.strip()] raises. *)
Fixpoint keep_nonblank (segs : list (option str)) : result (list str) :=
  match segs with
  | [] => Ok []
  | None :: _ => Raise AttributeError
  | Some s :: segs' =>
      rbind (keep_nonblank segs')
            (fun tl => Ok (if truthy (strip s) then s :: tl else tl))
  end.

(** [[s.strip() for s in segs if s.strip()]] *)
Fixpoint strip_nonblank (segs : list (option str)) : result (list str) :=
  match segs with
  | [] => Ok []
  | None :: _ => Raise AttributeError
  | Some s :: segs' =>
      rbind (strip_nonblank segs')
            (fun tl => Ok (if truthy (strip s) then strip s :: tl else tl))
  end.

(** [sum(len(s) for s in segments)] *)
Definition sum_len (segments : list str) : Z :=
  fold_left (fun acc s => acc + len s) segments 0.

(** ** Literals of the source *)

Definition mode_pipe : str := [31446; 32447; 20998; 21106]%N.          (* 竖线分割 *)
Definition mode_punctuation : str := [26631; 28857; 31526; 21495]%N.   (* 标点符号 *)
Definition mode_length : str := [22266; 23450; 38271; 24230]%N.        (* 固定长度 *)
Definition mode_regex : str := [33258; 23450; 20041; 27491; 21017]%N.  (* 自定义正则 *)
Definition mode_intelligent : str := [26234; 33021; 20998; 21477]%N.   (* 智能分句 *)

Definition pipe : char := 124%N.                                       (* | *)

(** 。！？；…!?.; *)
Definition delimiters : list char :=
  [12290; 65281; 65311; 65307; 8230; 33; 63; 46; 59]%N.
(** 。！？!? *)
Definition terminals : list char := [12290; 65281; 65311; 33; 63]%N.
(** ，；,; *)
Definition commas : list char := [65292; 65307; 44; 59]%N.

(** [r'[^。！？；…!?.;]+[。！？；…!?.;]+'] *)
Definition punctuation_keep_pattern : Pattern :=
  compile_regex (Cat (Plus (NoneOf delimiters)) (Plus (OneOf delimiters))).
(** [r'(?<=[。！？；…!?.;])\s*'] *)
Definition punctuation_split_pattern : Pattern :=
  compile_regex (Cat (Behind (OneOf delimiters)) (Star Space)).
(** [r'([^。！？!?]+[。！？!?]+)'] *)
Definition primary_pattern : Pattern :=
  compile_regex (Grp 1 (Cat (Plus (NoneOf terminals)) (Plus (OneOf terminals)))).
(** [r'([^，；,;]+[，；,;]+)'] *)
Definition secondary_pattern : Pattern :=
  compile_regex (Grp 1 (Cat (Plus (NoneOf commas)) (Plus (OneOf commas)))).

Definition ellipsis : str := [46; 46; 46]%N.                           (* ... *)

(** ** The node *)

Definition _split_by_pipe (text : str) : list str := split_char pipe text.

Definition _split_by_punctuation (text : str) (keep_delimiter : bool)
  : list (option str) :=
  if keep_delimiter then
    let segments := re_findall punctuation_keep_pattern text in
    let last_match_end := sum_len segments in
    map Some
        (if last_match_end <? len text then
           let remaining := strip (slice_from text last_match_end) in
           if truthy remaining then segments ++ [remaining] else segments
         else segments)
  else re_split punctuation_split_pattern text.

Definition _split_by_length (text : str) (length : Z) : result (list str) :=
  rbind (py_range 0 (len text) length)
        (fun offsets => Ok (map (fun i => slice text i (i + length)) offsets)).

(** Third pass of [_split_intelligent]: one iteration of the loop over
    [refined_segments]; the state is [(final_segments, temp)]. *)
Definition merge_step (st : list str * str) (seg : str) : list str * str :=
  let '(final_segments, temp) := st in
  let seg := strip seg in
  if (len temp + len seg <? 10) && truthy final_segments then
    (final_segments, temp ++ seg)
  else
    (if truthy temp then final_segments ++ [temp] else final_segments, seg).

Definition merge_short (refined_segments : list str) : list str :=
  let '(final_segments, temp) := fold_left merge_step refined_segments ([], []) in
  if truthy temp then final_segments ++ [temp] else final_segments.

(** Second pass of [_split_intelligent]. *)
Fixpoint refine (segments : list str) : result (list str) :=
  match segments with
  | [] => Ok []
  | seg :: segments' =>
      rbind (if 100 <? len seg
             then keep_nonblank (re_split secondary_pattern seg)
             else Ok [seg])
            (fun sub_segs =>
               rbind (refine segments') (fun tl => Ok (sub_segs ++ tl)))
  end.

Definition _split_intelligent (text : str) : result (list str) :=
  let segments := re_findall primary_pattern text in
  let last_match_end := sum_len segments in
  let segments :=
    if last_match_end <? len text then
      let remaining := strip (slice_from text last_match_end) in
      if truthy remaining then segments ++ [remaining] else segments
    else segments in
  rbind (refine segments) (fun refined_segments => Ok (merge_short refined_segments)).

(** [for i, seg in enumerate(segments[:5]): print(...)], from index [i]. *)
Fixpoint print_previews (i : Z) (segs : list str) : M unit :=
  match segs with
  | [] => ret tt
  | seg :: segs' =>
      print (PrintPreview (i + 1)
               (slice_to seg 60 ++ (if 60 <? len seg then ellipsis else []))) ;;;
      print_previews (i + 1) segs'
  end.

Section Node.

(** The compilation step of [re.split(pattern, text)]. *)
Variable re_compile : str -> compiled.

Definition _split_by_regex (text pattern : str) (keep_delimiter : bool)
  : M (list (option str)) :=
  match re_compile pattern with
  | Compiled p => ret (re_split p text)
  | PatternError =>
      print PrintRegexError ;;;
      ret (_split_by_punctuation text keep_delimiter)
  | CompileRaises e => throw e
  end.

(** Lines 82-93: the strategy selected by [split_mode]. *)
Definition dispatch (text split_mode : str) (split_length : Z)
           (regex_pattern : str) (keep_delimiter : bool) : M (list (option str)) :=
  if str_eqb split_mode mode_pipe then
    ret (map Some (_split_by_pipe text))
  else if str_eqb split_mode mode_punctuation then
    ret (_split_by_punctuation text keep_delimiter)
  else if str_eqb split_mode mode_length then
    lift (rbind (_split_by_length text split_length) (fun l => Ok (map Some l)))
  else if str_eqb split_mode mode_regex then
    _split_by_regex text regex_pattern keep_delimiter
  else if str_eqb split_mode mode_intelligent then
    lift (rbind (_split_intelligent text) (fun l => Ok (map Some l)))
  else ret [].

(** Lines 97-99. *)
Definition truncate (segments : list str) (max_segments : Z) : M (list str) :=
  if max_segments <? len segments then
    print (PrintTruncated (len segments) max_segments) ;;;
    ret (slice_to segments max_segments)
  else ret segments.

(** Lines 101-118. *)
Definition report (segments : list str) : M (list str) :=
  let total := len segments in
  if total =? 0 then ret []
  else
    print PrintRule ;;;
    print (PrintTotal total) ;;;
    print PrintRule ;;;
    print_previews 0 (slice_to segments 5) ;;;
    (if 5 <? total then print (PrintMore (total - 5)) else ret tt) ;;;
    print PrintRule ;;;
    print PrintHandoff ;;;
    print (PrintCalls total) ;;;
    ret segments.

Definition split_to_batch (text split_mode : str) (max_segments split_length : Z)
           (regex_pattern : str) (keep_delimiter : bool) : M (list str) :=
  let text := strip text in
  if negb (truthy text) then ret []
  else
    segments <- dispatch text split_mode split_length regex_pattern keep_delimiter ;;
    segments <- lift (strip_nonblank segments) ;;
    segments <- truncate segments max_segments ;;
    report segments.

End Node.

(** ** Reference notions used in the statements *)

(** A segment that is non-empty after trimming. *)
Definition nonblank (s : str) : Prop := strip s <> [].

(** The five values of [split_mode] offered by [INPUT_TYPES]. *)
Definition split_modes : list str :=
  [mode_pipe; mode_punctuation; mode_length; mode_regex; mode_intelligent].

(** The stretches of [text] between consecutive matches: from the start of
    the text or the end of a match, up to the start of the next match or the
    end of the text. *)
Definition stretches_between (text : str) (ms : list mtch) : list str :=
  map (fun '(a, b) => substr text a b)
      (combine (O :: map m_end ms) (map m_start ms ++ [length text])).

(** The stretches between the matches of [p], trimmed, blank ones dropped. *)
Definition trimmed_stretches (p : Pattern) (text : str) : list str :=
  filter truthy (map strip (stretches_between text (finditer p text))).

(** Number of output elements of the third pass. *)
Definition merged_count (refined_segments : list str) : nat :=
  length (merge_short refined_segments).

(** The buffer [temp] after the third pass has consumed [refined_segments]. *)
Definition buffer_after (refined_segments : list str) : str :=
  snd (fold_left merge_step refined_segments ([], [])).

(** a{4294967296} *)
Definition huge_repeat : str :=
  [97; 123; 52; 50; 57; 52; 57; 54; 55; 50; 57; 54; 125]%N.

(** What [re.compile] answers on the pattern strings of the examples:
    ["(unclosed"] is rejected with [re.error], ["(,)"] is a group around a
    comma, ["(a)|b"] an alternation whose first branch is a group, [","] a
    comma, and ["a{4294967296}"] raises [OverflowError]. *)
Definition example_compile (pat : str) : compiled :=
  if str_eqb pat [40; 44; 41]%N then
    Compiled (compile_regex (Grp 1 (Chr (OneOf [44%N]))))
  else if str_eqb pat [40; 97; 41; 124; 98]%N then
    Compiled (compile_regex (Alt (Grp 1 (Chr (OneOf [97%N]))) (Chr (OneOf [98%N]))))
  else if str_eqb pat [44]%N then
    Compiled (compile_regex (Chr (OneOf [44%N])))
  else if str_eqb pat huge_repeat then
    CompileRaises OverflowError
  else PatternError.

(** 你好。世界！ *)
Definition nihao_shijie : str := [20320; 22909; 12290; 19990; 30028; 65281]%N.

(** What a pattern of the fragment matches, read declaratively: [lang r
    before s] says that [r] can match the string [s] when the text before it
    is [before] (last character first). *)
Fixpoint lang (r : regex) (before s : str) : Prop :=
  match r with
  | Eps => s = []
  | Chr cs => exists x, s = [x] /\ in_cset cs x = true
  | Star cs => Forall (fun x => in_cset cs x = true) s
  | Plus cs => s <> [] /\ Forall (fun x => in_cset cs x = true) s
  | Behind cs => s = [] /\ exists p b, before = p :: b /\ in_cset cs p = true
  | Cat r1 r2 =>
      exists s1 s2, s = s1 ++ s2 /\ lang r1 before s1 /\ lang r2 (rev s1 ++ before) s2
  | Alt r1 r2 => lang r1 before s \/ lang r2 before s
  | Grp _ r' => lang r' before s
  end.

(** A string that does not start with white space. *)
Definition clean_head (s : str) : Prop :=
  match s with [] => True | c :: _ => isspace c = false end.

(** The chunk number [k] when cutting every [n] characters. *)
Definition chunk (text : str) (n k : nat) : str :=
  firstn n (skipn (k * n) text).

(** [sep.join(pieces)] *)
Fixpoint join (sep : str) (pieces : list str) : str :=
  match pieces with
  | [] => []
  | [x] => x
  | x :: pieces' => x ++ sep ++ join sep pieces'
  end.

(** Number of occurrences of a character, [s.count(c)]. *)
Definition count_char (c : char) (s : str) : nat :=
  length (filter (char_eqb c) s).

(** The characters of a string that are not white space, in order. *)
Definition visible (s : str) : str := filter (fun c => negb (isspace c)) s.

(** A string that [strip] leaves as it is. *)
Definition trimmed (s : str) : Prop := strip s = s.

(** Matches that follow one another from position [last] within a text of
    [n] characters: each starts at or after the end of the one before. *)
Fixpoint chain (last : nat) (ms : list mtch) (n : nat) : Prop :=
  match ms with
  | [] => (last <= n)%nat
  | m :: ms' =>
      (last <= m_start m)%nat /\ (m_start m <= m_end m)%nat /\ chain (m_end m) ms' n
  end.

(** The text from [last] on, cut at the matches: the stretch before each
    match, then the matched text, and the tail after the last match. *)
Fixpoint weave (text : str) (last : nat) (ms : list mtch) : str :=
  match ms with
  | [] => skipn last text
  | m :: ms' =>
      substr text last (m_start m) ++ substr text (m_start m) (m_end m)
        ++ weave text (m_end m) ms'
  end.

(** A pattern whose match at [i] ends between [i] and the end of the text. *)
Definition well_behaved (p : Pattern) : Prop :=
  forall before i rest adv j c,
    p_attempt p before i rest adv = Some (j, c) ->
    (i <= j <= i + length rest)%nat.

(** The previews of a log, in order: number and text shown. *)
Fixpoint previews (log : list diag) : list (Z * str) :=
  match log with
  | [] => []
  | PrintPreview k shown_text :: log' => (k, shown_text) :: previews log'
  | _ :: log' => previews log'
  end.

(** The truncation warnings of a log: segments produced and limit. *)
Fixpoint truncations (log : list diag) : list (Z * Z) :=
  match log with
  | [] => []
  | PrintTruncated n limit :: log' => (n, limit) :: truncations log'
  | _ :: log' => truncations log'
  end.

(** A segment as the summary shows it: whole when it has at most 60
    characters, else its first 60 characters and three dots. *)
Definition shown (seg : str) : str :=
  if len seg <=? 60 then seg else firstn 60 seg ++ ellipsis.

(** A string without the occurrences of one character. *)
Definition without (c : char) (s : str) : str :=
  filter (fun x => negb (char_eqb x c)) s.

(** The longest prefix whose characters satisfy [f], and what follows it. *)
Fixpoint take_while (f : char -> bool) (s : str) : str :=
  match s with
  | x :: s' => if f x then x :: take_while f s' else []
  | [] => []
  end.

Fixpoint drop_while (f : char -> bool) (s : str) : str :=
  match s with
  | x :: s' => if f x then drop_while f s' else s
  | [] => []
  end.

(** The pattern [[^l]+[l]+]: a run of characters outside [l] closed by a
    run of characters of [l]. *)
Definition runs_regex (l : list char) : regex :=
  Cat (Plus (NoneOf l)) (Plus (OneOf l)).

(** Length of the match of [[^l]+[l]+] at the start of [rest], if any: the
    longest run outside [l], which must not be empty, and the longest run of
    [l] after it, which must not be empty either. *)
Definition runs_end (l : list char) (rest : str) : option nat :=
  match rest with
  | x :: r =>
      if mem_char x l then None
      else match drop_while (fun c => negb (mem_char c l)) r with
           | y :: s' =>
               Some (S (length (take_while (fun c => negb (mem_char c l)) r))
                     + S (length (take_while (fun c => mem_char c l) s')))%nat
           | [] => None
           end
  | [] => None
  end.

(** A compiled pattern that matches as [[^l]+[l]+] does. *)
Definition is_runs (l : list char) (p : Pattern) : Prop :=
  exists capf, forall before i rest adv,
    p_attempt p before i rest adv =
    match runs_end l rest with
    | Some n => Some ((i + n)%nat, capf i (i + n)%nat)
    | None => None
    end.

(** A string that does not begin with a character of [l]. *)
Definition starts_clean (l : list char) (s : str) : Prop :=
  match s with [] => True | c :: _ => mem_char c l = false end.

(** Matches that tile [rest], the text from position [i] on: each starts
    where the one before ended, and after the last one no character of [l]
    is left. *)
Fixpoint tiling (l : list char) (i : nat) (rest : str) (ms : list mtch) : Prop :=
  match ms with
  | [] => Forall (fun c => mem_char c l = false) rest
  | m :: ms' =>
      m_start m = i /\ (i < m_end m)%nat /\ (m_end m - i <= length rest)%nat
      /\ tiling l (m_end m) (skipn (m_end m - i) rest) ms'
  end.

(** What [re.split] returns for a pattern that is one group around
    everything: before each match the stretch that precedes it, then the
    matched text, and at the end the tail. *)
Fixpoint cut (text : str) (last : nat) (ms : list mtch) : list str :=
  match ms with
  | [] => [skipn last text]
  | m :: ms' =>
      substr text last (m_start m) :: substr text (m_start m) (m_end m)
        :: cut text (m_end m) ms'
  end.

(** * Properties *)

(** ** Strings and slices *)

Lemma str_eqb_eq (a b : str) : str_eqb a b = true <-> a = b.
Proof.
  revert b; induction a as [|x a IH]; intros [|y b]; simpl; split;
    try congruence; try discriminate.
  - intros H. apply andb_true_iff in H as [Hx Hab].
    apply N.eqb_eq in Hx. apply IH in Hab. congruence.
  - intros H. injection H as -> ->. apply andb_true_iff. split.
    + apply N.eqb_refl.
    + now apply IH.
Qed.

Lemma str_eqb_neq (a b : str) : a <> b -> str_eqb a b = false.
Proof.
  intros H. destruct (str_eqb a b) eqn:E; [|reflexivity].
  apply str_eqb_eq in E. contradiction.
Qed.

Lemma truthy_true {A} (l : list A) : truthy l = true <-> l <> [].
Proof. destruct l; simpl; split; congruence. Qed.

Lemma truthy_false {A} (l : list A) : truthy l = false <-> l = [].
Proof. destruct l; simpl; split; congruence. Qed.

Lemma lstrip_clean_head s : clean_head (lstrip s).
Proof.
  induction s as [|c s IH]; simpl; [exact I|].
  destruct (isspace c) eqn:E; [exact IH | simpl; exact E].
Qed.

Lemma lstrip_fixed s : clean_head s -> lstrip s = s.
Proof. destruct s as [|c s]; simpl; [reflexivity | intros ->; reflexivity]. Qed.

Lemma lstrip_snoc s c : isspace c = false -> lstrip (s ++ [c]) = lstrip s ++ [c].
Proof.
  intros Hc. induction s as [|x s IH]; simpl.
  - now rewrite Hc.
  - destruct (isspace x); [exact IH | reflexivity].
Qed.

Lemma clean_head_app s t : s <> [] -> clean_head s -> clean_head (s ++ t).
Proof. destruct s; simpl; [congruence | auto]. Qed.

Lemma rstrip_clean_cons c t :
  isspace c = false -> rstrip (c :: t) = c :: rev (lstrip (rev t)).
Proof.
  intros H. unfold rstrip. simpl rev.
  rewrite (lstrip_snoc _ _ H), rev_app_distr. reflexivity.
Qed.

Lemma strip_idempotent s : strip (strip s) = strip s.
Proof.
  unfold strip.
  pose proof (lstrip_clean_head s) as H.
  destruct (lstrip s) as [|c t]; [reflexivity|].
  simpl in H. rewrite (rstrip_clean_cons _ _ H).
  simpl lstrip. rewrite H.
  rewrite (rstrip_clean_cons _ _ H), rev_involutive.
  rewrite (lstrip_fixed _ (lstrip_clean_head (rev t))). reflexivity.
Qed.

Lemma strip_nonblank_fixed s : nonblank (strip s) <-> nonblank s.
Proof. unfold nonblank. now rewrite strip_idempotent. Qed.

Lemma firstn_add {A} (a b : nat) (l : list A) :
  firstn (a + b) l = firstn a l ++ firstn b (skipn a l).
Proof.
  revert l; induction a as [|a IH]; intros l; simpl; [reflexivity|].
  destruct l as [|x l]; simpl.
  - now rewrite firstn_nil.
  - now rewrite IH.
Qed.

Lemma slice_to_firstn {A} (l : list A) (n : Z) :
  0 <= n -> slice_to l n = firstn (Z.to_nat n) l.
Proof.
  intros Hn. unfold slice_to, clamp, len.
  destruct (n <? 0) eqn:E; [apply Z.ltb_lt in E; lia|].
  destruct (Z.le_gt_cases n (Z.of_nat (length l))) as [Hle|Hgt].
  - now rewrite Z.min_l.
  - rewrite Z.min_r by lia. rewrite Nat2Z.id.
    rewrite !firstn_all2; try reflexivity; lia.
Qed.

Lemma len_firstn_le {A} (l : list A) (n : Z) :
  0 <= n -> len (firstn (Z.to_nat n) l) <= n.
Proof.
  intros Hn. unfold len. rewrite length_firstn. lia.
Qed.

(** ** The monad *)

Lemma outcome_bind {A B} (m : M A) (f : A -> M B) :
  outcome (bind m f) = rbind (outcome m) (fun a => outcome (f a)).
Proof.
  destruct m as [out [a|e]]; simpl; [|reflexivity].
  destruct (f a); reflexivity.
Qed.

Lemma output_bind {A B} (m : M A) (f : A -> M B) :
  output (bind m f) =
  output m ++ match outcome m with Ok a => output (f a) | Raise _ => [] end.
Proof.
  destruct m as [out [a|e]]; simpl.
  - destruct (f a); reflexivity.
  - now rewrite app_nil_r.
Qed.

Lemma print_previews_outcome i segs : outcome (print_previews i segs) = Ok tt.
Proof.
  revert i; induction segs as [|s segs IH]; intros i; [reflexivity|].
  cbn [print_previews]. rewrite outcome_bind. cbn [print outcome snd rbind].
  apply IH.
Qed.

Lemma report_outcome segs : outcome (report segs) = Ok segs.
Proof.
  unfold report. destruct (len segs =? 0) eqn:E.
  - apply Z.eqb_eq in E. destruct segs; [reflexivity | discriminate].
  - repeat (rewrite outcome_bind; cbn [print outcome snd rbind]).
    rewrite print_previews_outcome. cbn [rbind].
    repeat (rewrite outcome_bind; cbn [print outcome snd rbind]).
    destruct (5 <? len segs); reflexivity.
Qed.

Lemma truncate_outcome segs max :
  0 <= max -> outcome (truncate segs max) = Ok (firstn (Z.to_nat max) segs).
Proof.
  intros Hmax. unfold truncate. destruct (max <? len segs) eqn:E.
  - rewrite outcome_bind. cbn. now rewrite slice_to_firstn.
  - apply Z.ltb_ge in E. simpl. unfold len in E.
    rewrite firstn_all2; [reflexivity | lia].
Qed.

Lemma truncate_output segs max :
  output (truncate segs max) =
  if max <? len segs then [PrintTruncated (len segs) max] else [].
Proof.
  unfold truncate. destruct (max <? len segs); reflexivity.
Qed.

(** ** Dropping blank candidates (line 95) *)

Lemma strip_nonblank_some l :
  strip_nonblank (map Some l) = Ok (filter truthy (map strip l)).
Proof.
  induction l as [|s l IH]; simpl; [reflexivity|].
  rewrite IH. simpl. destruct (truthy (strip s)); reflexivity.
Qed.

Lemma strip_nonblank_sound raw segs :
  strip_nonblank raw = Ok segs -> Forall nonblank segs.
Proof.
  revert segs; induction raw as [|[s|] raw IH]; simpl; intros segs H.
  - injection H as <-. constructor.
  - destruct (strip_nonblank raw) as [tl|e]; simpl in H; [|discriminate].
    injection H as <-. specialize (IH tl eq_refl).
    destruct (truthy (strip s)) eqn:E; [|exact IH].
    constructor; [|exact IH].
    apply strip_nonblank_fixed. now apply truthy_true.
  - discriminate.
Qed.

Lemma strip_nonblank_raise raw e :
  strip_nonblank raw = Raise e -> e = AttributeError /\ In None raw.
Proof.
  induction raw as [|[s|] raw IH]; simpl; intros H.
  - discriminate.
  - destruct (strip_nonblank raw) as [tl|e']; simpl in H; [discriminate|].
    injection H as <-. destruct (IH eq_refl). auto.
  - injection H as <-. auto.
Qed.

Lemma keep_nonblank_raise raw e :
  keep_nonblank raw = Raise e -> e = AttributeError /\ In None raw.
Proof.
  induction raw as [|[s|] raw IH]; simpl; intros H.
  - discriminate.
  - destruct (keep_nonblank raw) as [tl|e']; simpl in H; [discriminate|].
    injection H as <-. destruct (IH eq_refl). auto.
  - injection H as <-. auto.
Qed.

Lemma in_map_some {A} (l : list A) : ~ In None (map Some l).
Proof. induction l; simpl; intuition discriminate. Qed.

(** ** The matcher *)

(** The matcher only accepts what the pattern describes: when [run]
    succeeds, it has consumed a prefix [s] of the unread text that is in
    [lang r], and the continuation succeeded after it. *)
Lemma greedy_sound cs rest : forall before i caps k a,
  greedy cs before i rest caps k = Some a ->
  exists s rest',
    rest = s ++ rest'
    /\ Forall (fun x => in_cset cs x = true) s
    /\ k (rev s ++ before) (i + length s)%nat rest' caps = Some a.
Proof.
  induction rest as [|x rest IH]; intros before i caps k a; simpl.
  - intros H. exists [], []. rewrite Nat.add_0_r. auto.
  - destruct (in_cset cs x) eqn:Ex.
    + destruct (greedy cs (x :: before) (S i) rest caps k) eqn:E.
      * intros [= <-]. apply IH in E as (s & rest' & -> & Hs & Hk).
        exists (x :: s), rest'. simpl. rewrite <- app_assoc. simpl.
        rewrite Nat.add_succ_r. auto.
      * intros H. exists [], (x :: rest). rewrite Nat.add_0_r. auto.
    + intros H. exists [], (x :: rest). rewrite Nat.add_0_r. auto.
Qed.

Lemma run_sound r : forall before i rest caps k a,
  run r before i rest caps k = Some a ->
  exists s rest' caps',
    rest = s ++ rest'
    /\ lang r before s
    /\ k (rev s ++ before) (i + length s)%nat rest' caps' = Some a.
Proof.
  induction r as [|cs|cs|cs|cs|r1 IH1 r2 IH2|r1 IH1 r2 IH2|n r IH];
    intros before i rest caps k a; simpl.
  - intros H. exists [], rest, caps. rewrite Nat.add_0_r. auto.
  - destruct rest as [|x rest]; [discriminate|].
    destruct (in_cset cs x) eqn:Ex; [|discriminate].
    intros H. exists [x], rest, caps. simpl. rewrite Nat.add_1_r. eauto.
  - intros H. apply greedy_sound in H as (s & rest' & -> & Hs & Hk).
    exists s, rest', caps. auto.
  - destruct rest as [|x rest]; [discriminate|].
    destruct (in_cset cs x) eqn:Ex; [|discriminate].
    intros H. apply greedy_sound in H as (s & rest' & -> & Hs & Hk).
    exists (x :: s), rest', caps. simpl. rewrite <- app_assoc. simpl.
    rewrite Nat.add_succ_r. repeat split; auto. discriminate.
  - destruct before as [|p b]; [discriminate|].
    destruct (in_cset cs p) eqn:Ep; [|discriminate].
    intros H. exists [], rest, caps. rewrite Nat.add_0_r. simpl.
    repeat split; auto. exists p, b. auto.
  - intros H. apply IH1 in H as (s1 & rest1 & caps1 & -> & H1 & H).
    apply IH2 in H as (s2 & rest2 & caps2 & -> & H2 & H).
    exists (s1 ++ s2), rest2, caps2. rewrite <- app_assoc.
    rewrite rev_app_distr, <- app_assoc, length_app, Nat.add_assoc.
    repeat split; auto. exists s1, s2. auto.
  - destruct (run r1 before i rest caps k) eqn:E.
    + intros [= <-]. apply IH1 in E as (s & rest' & caps' & -> & H1 & H).
      exists s, rest', caps'. auto.
    + intros H. apply IH2 in H as (s & rest' & caps' & -> & H2 & H).
      exists s, rest', caps'. auto.
  - intros H. apply IH in H as (s & rest' & caps' & -> & H1 & H). eauto 7.
Qed.

Lemma attempt_sound r before i rest adv j c :
  attempt r before i rest adv = Some (j, c) ->
  exists s rest', rest = s ++ rest' /\ lang r before s /\ j = (i + length s)%nat.
Proof.
  unfold attempt. intros H.
  apply run_sound in H as (s & rest' & caps' & -> & Hl & H).
  destruct (adv && Nat.eqb (i + length s) i); [discriminate|].
  injection H as <- <-. eauto.
Qed.

(** A match of a pattern that is one group sets that group to the span of
    the match. *)
Lemma attempt_group_sound n r before i rest adv j c :
  attempt (Grp n r) before i rest adv = Some (j, c) ->
  capture n c = Some (i, j)
  /\ exists s rest', rest = s ++ rest' /\ lang r before s /\ j = (i + length s)%nat.
Proof.
  unfold attempt. simpl. intros H.
  apply run_sound in H as (s & rest' & caps' & -> & Hl & H).
  destruct (adv && Nat.eqb (i + length s) i); [discriminate|].
  injection H as <- <-. simpl. rewrite Nat.eqb_refl. eauto 6.
Qed.

(** A property of every anchored attempt of [p] holds of every match that
    [scan] reports.  The text is [rev before ++ rest] throughout. *)
Lemma scan_matches (Q : str -> nat -> nat -> captures -> Prop) p :
  (forall before i rest adv j c,
      i = length before ->
      p_attempt p before i rest adv = Some (j, c) ->
      Q (rev before ++ rest) i j c) ->
  forall rest before i skip,
    i = length before ->
    Forall (fun m => Q (rev before ++ rest) (m_start m) (m_end m) (m_caps m))
           (scan p before i rest skip).
Proof.
  intros HQ. induction rest as [|x rest IH]; intros before i skip Hi.
  - simpl. destruct skip; [|constructor].
    destruct (p_attempt p before i [] false) as [[j c]|] eqn:E; [|constructor].
    destruct (Nat.eqb j i).
    + constructor; [eapply (HQ before i []); eauto|].
      destruct (p_attempt p before i [] true) as [[j' c']|] eqn:E'; constructor;
        [eapply (HQ before i []); eauto | constructor].
    + constructor; [eapply (HQ before i []); eauto | constructor].
  - assert (Hnext : forall sk,
               Forall (fun m => Q (rev before ++ x :: rest)
                                  (m_start m) (m_end m) (m_caps m))
                      (scan p (x :: before) (S i) rest sk)).
    { intros sk.
      replace (rev before ++ x :: rest) with (rev (x :: before) ++ rest)
        by (simpl; now rewrite <- app_assoc).
      apply IH. simpl. now rewrite Hi. }
    simpl. destruct skip; [|apply Hnext].
    destruct (p_attempt p before i (x :: rest) false) as [[j c]|] eqn:E;
      [|apply Hnext].
    destruct (Nat.eqb j i).
    + constructor; [eapply (HQ before i (x :: rest)); eauto|].
      destruct (p_attempt p before i (x :: rest) true) as [[j' c']|] eqn:E';
        [constructor; [eapply (HQ before i (x :: rest)); eauto | apply Hnext]
        | apply Hnext].
    + constructor; [eapply (HQ before i (x :: rest)); eauto | apply Hnext].
Qed.

Lemma finditer_matches (Q : str -> nat -> nat -> captures -> Prop) p text :
  (forall before i rest adv j c,
      i = length before ->
      p_attempt p before i rest adv = Some (j, c) ->
      Q (rev before ++ rest) i j c) ->
  Forall (fun m => Q text (m_start m) (m_end m) (m_caps m)) (finditer p text).
Proof.
  intros HQ. unfold finditer.
  apply (scan_matches Q p HQ text [] O O). reflexivity.
Qed.

Lemma substr_middle (before s rest : str) :
  substr (rev before ++ s ++ rest) (length before) (length before + length s) = s.
Proof.
  unfold substr. rewrite skipn_app, length_rev, Nat.sub_diag.
  rewrite skipn_all2 by (rewrite length_rev; lia). simpl.
  replace (length before + length s - length before)%nat with (length s) by lia.
  rewrite firstn_app, Nat.sub_diag, firstn_all. simpl. now rewrite app_nil_r.
Qed.

(** Every match of a pattern [(r)] sets group 1 to a string of [lang r]. *)
Lemma finditer_group_lang r text :
  Forall (fun m => exists s before, group text m 1 = Some s /\ lang r before s)
         (finditer (compile_regex (Grp 1 r)) text).
Proof.
  apply (finditer_matches
           (fun text i j c =>
              exists s before,
                match capture 1 c with
                | Some (a, b) => Some (substr text a b)
                | None => None
                end = Some s /\ lang r before s)).
  intros before i rest adv j c Hi H. cbn [compile_regex p_attempt] in H.
  apply attempt_group_sound in H as (Hc & s & rest' & -> & Hl & ->).
  rewrite Hc. subst i. rewrite substr_middle. eauto.
Qed.

(** Every match of a pattern of the fragment is a string of its language. *)
Lemma finditer_lang r text :
  Forall (fun m => exists before,
              lang r before (substr text (m_start m) (m_end m)))
         (finditer (compile_regex r) text).
Proof.
  apply (finditer_matches
           (fun text i j c => exists before, lang r before (substr text i j))).
  intros before i rest adv j c Hi H. cbn [compile_regex p_attempt] in H.
  apply attempt_sound in H as (s & rest' & -> & Hl & ->).
  subst i. rewrite substr_middle. eauto.
Qed.

Lemma split_loop_no_none n text ms :
  Forall (fun m => forall g, In g (seq 1 n) -> capture g (m_caps m) <> None) ms ->
  forall last, ~ In None (split_loop n text last ms).
Proof.
  induction 1 as [|m ms Hm _ IH]; intros last; simpl.
  - intros [H|[]]; discriminate.
  - intros [H|H]; [discriminate|].
    apply in_app_or in H as [H|H]; [|eapply IH; eauto].
    apply in_map_iff in H as (g & Hg & Hin).
    unfold group in Hg. specialize (Hm g Hin).
    destruct (capture g (m_caps m)) as [[a b]|]; [discriminate | congruence].
Qed.

(** Without groups [re.split] returns strings only. *)
Lemma re_split_no_groups p text : p_groups p = O -> ~ In None (re_split p text).
Proof.
  intros H. unfold re_split. rewrite H. apply split_loop_no_none.
  apply Forall_forall. intros m _ g [].
Qed.

(** The same holds when the whole pattern is one group. *)
Lemma re_split_one_group r text :
  groups r = O -> ~ In None (re_split (compile_regex (Grp 1 r)) text).
Proof.
  intros H. unfold re_split. cbn [compile_regex p_groups groups]. rewrite H.
  apply split_loop_no_none.
  eapply Forall_impl; [|apply (finditer_group_lang r text)].
  intros m (s & before & Hg & _) g [<-|[]]. unfold group in Hg.
  destruct (capture 1 (m_caps m)); [discriminate | discriminate].
Qed.

(** The stretches between matches are what [re.split] returns for a pattern
    without groups. *)
Lemma split_loop_stretches text ms : forall last,
  split_loop 0 text last ms =
  map Some (map (fun '(a, b) => substr text a b)
                (combine (last :: map m_end ms) (map m_start ms ++ [length text]))).
Proof.
  induction ms as [|m ms IH]; intros last; simpl.
  - unfold substr. f_equal. f_equal.
    rewrite firstn_all2; [reflexivity|]. rewrite length_skipn. lia.
  - f_equal. apply IH.
Qed.

Lemma re_split_stretches p text :
  p_groups p = O ->
  re_split p text = map Some (stretches_between text (finditer p text)).
Proof.
  intros H. unfold re_split, stretches_between. rewrite H.
  apply split_loop_stretches.
Qed.

(** ** The strategies never fail, except as noted *)

Lemma punctuation_no_none text keep :
  ~ In None (_split_by_punctuation text keep).
Proof.
  unfold _split_by_punctuation. destruct keep.
  - apply in_map_some.
  - now apply re_split_no_groups.
Qed.

Lemma keep_nonblank_total raw :
  ~ In None raw -> exists l, keep_nonblank raw = Ok l.
Proof.
  intros H. destruct (keep_nonblank raw) as [l|e] eqn:E; [eauto|].
  apply keep_nonblank_raise in E as [_ E]. contradiction.
Qed.


Lemma refine_total segments : exists l, refine segments = Ok l.
Proof.
  induction segments as [|seg segments [tl IH]]; simpl; [eauto|].
  rewrite IH.
  destruct (100 <? len seg).
  - destruct (keep_nonblank_total (re_split secondary_pattern seg)) as [l ->].
    + now apply re_split_one_group.
    + simpl. eauto.
  - simpl. eauto.
Qed.

Lemma intelligent_total text : exists l, _split_intelligent text = Ok l.
Proof.
  unfold _split_intelligent.
  match goal with |- context [refine ?s] => destruct (refine_total s) as [l ->] end.
  simpl. eauto.
Qed.

(** ** The entry point *)

Section Pipeline.

Variable re_compile : str -> compiled.

Lemma split_to_batch_outcome text split_mode max_segments split_length pattern keep :
  strip text <> [] ->
  outcome (split_to_batch re_compile text split_mode max_segments split_length
                          pattern keep) =
  rbind (outcome (dispatch re_compile (strip text) split_mode split_length
                           pattern keep))
        (fun raw => rbind (strip_nonblank raw)
                          (fun segs => outcome (truncate segs max_segments))).
Proof.
  intros Hne. unfold split_to_batch.
  apply truthy_true in Hne. rewrite Hne. cbn [negb].
  rewrite outcome_bind. destruct (outcome (dispatch _ _ _ _ _ _)) as [raw|e];
    [|reflexivity].
  cbn [rbind]. rewrite outcome_bind. cbn [lift outcome snd].
  destruct (strip_nonblank raw) as [segs|e]; [|reflexivity].
  cbn [rbind]. rewrite outcome_bind.
  destruct (outcome (truncate segs max_segments)) as [segs'|e]; [|reflexivity].
  cbn [rbind]. apply report_outcome.
Qed.

Lemma split_to_batch_output text split_mode max_segments split_length pattern keep
      raw segs :
  strip text <> [] ->
  outcome (dispatch re_compile (strip text) split_mode split_length pattern keep)
  = Ok raw ->
  strip_nonblank raw = Ok segs ->
  exists tail,
    output (split_to_batch re_compile text split_mode max_segments split_length
                           pattern keep) =
    output (dispatch re_compile (strip text) split_mode split_length pattern keep)
    ++ output (truncate segs max_segments) ++ tail.
Proof.
  intros Hne Hd Hs. unfold split_to_batch.
  apply truthy_true in Hne. rewrite Hne. cbn [negb].
  rewrite output_bind, Hd. rewrite output_bind. cbn [lift outcome output fst snd].
  rewrite Hs. rewrite output_bind. cbn [app]. eauto.
Qed.

Lemma split_to_batch_blank text split_mode max_segments split_length pattern keep :
  strip text = [] ->
  split_to_batch re_compile text split_mode max_segments split_length pattern keep
  = ([], Ok []).
Proof.
  intros H. unfold split_to_batch. rewrite H. reflexivity.
Qed.

(** C7: a text that is empty after trimming (the empty string, or white
    space only) gives the empty sequence for every strategy, every
    [max_segments] and every option, without any diagnostic and without
    raising. *)
Theorem blank_text_gives_empty text split_mode max_segments split_length
        pattern keep :
  strip text = [] ->
  1 <= max_segments ->
  split_to_batch re_compile text split_mode max_segments split_length pattern keep
  = ([], Ok []).
Proof.
  intros H _. now apply split_to_batch_blank.
Qed.

Lemma dispatch_unknown_mode text split_mode split_length pattern keep :
  ~ In split_mode split_modes ->
  dispatch re_compile text split_mode split_length pattern keep = ([], Ok []).
Proof.
  intros H. unfold dispatch, split_modes in *. simpl in H.
  rewrite !str_eqb_neq; [reflexivity|..]; intros ->; tauto.
Qed.

(** C10: for a [split_mode] that is none of the five strategy names, no
    strategy runs ([dispatch] leaves the candidate list empty) and
    [split_to_batch] returns the empty sequence without raising, whatever
    the non-empty text, the limit and the options; with a limit that is not
    negative nothing is printed either. *)
Theorem unknown_mode_gives_empty text split_mode max_segments split_length
        pattern keep :
  text <> [] ->
  ~ In split_mode split_modes ->
  dispatch re_compile (strip text) split_mode split_length pattern keep
  = ([], Ok [])
  /\ outcome (split_to_batch re_compile text split_mode max_segments split_length
                             pattern keep) = Ok []
  /\ (0 <= max_segments ->
      split_to_batch re_compile text split_mode max_segments split_length
                     pattern keep = ([], Ok [])).
Proof.
  intros _ H. split; [now apply dispatch_unknown_mode|].
  destruct (strip text) as [|c t] eqn:Hs.
  - unfold split_to_batch. rewrite Hs. split; reflexivity.
  - assert (Hne : strip text <> []) by (rewrite Hs; discriminate). split.
    + rewrite split_to_batch_outcome by exact Hne.
      rewrite Hs, (dispatch_unknown_mode _ _ _ _ _ H).
      cbn [outcome snd rbind strip_nonblank]. unfold truncate.
      destruct (max_segments <? len []); [|reflexivity].
      rewrite outcome_bind. cbn. unfold slice_to. now rewrite firstn_nil.
    + intros Hmax. unfold split_to_batch. rewrite Hs. cbn [truthy negb].
      rewrite (dispatch_unknown_mode _ _ _ _ _ H).
      cbn [bind lift strip_nonblank app]. unfold truncate.
      replace (max_segments <? len []) with false; [reflexivity|].
      symmetry. apply Z.ltb_ge. exact Hmax.
Qed.


Lemma Forall_firstn_keep {A} (P : A -> Prop) n (l : list A) :
  Forall P l -> Forall P (firstn n l).
Proof.
  intros H. revert n. induction H; intros [|n]; simpl; constructor; auto.
Qed.

Lemma truncate_keeps (P : str -> Prop) segs max_segments out :
  Forall P segs -> outcome (truncate segs max_segments) = Ok out -> Forall P out.
Proof.
  intros H. unfold truncate. destruct (max_segments <? len segs).
  - rewrite outcome_bind. cbn. intros [= <-]. now apply Forall_firstn_keep.
  - cbn. now intros [= <-].
Qed.

(** What the strategies hand to line 95: a list without [None], unless a
    user pattern with groups was applied; the exceptions a strategy can
    raise are the [ValueError] of [range] with a zero step and what the
    compilation of a user pattern raises other than [re.error]. *)
Lemma dispatch_cases text split_mode split_length pattern keep :
  match outcome (dispatch re_compile text split_mode split_length pattern keep) with
  | Ok raw =>
      ~ In None raw
      \/ (split_mode = mode_regex
          /\ exists p, re_compile pattern = Compiled p /\ p_groups p <> O)
  | Raise e =>
      (split_mode = mode_length /\ split_length = 0 /\ e = ValueError)
      \/ (split_mode = mode_regex /\ re_compile pattern = CompileRaises e)
  end.
Proof.
  unfold dispatch.
  destruct (str_eqb split_mode mode_pipe); [left; apply in_map_some|].
  destruct (str_eqb split_mode mode_punctuation);
    [left; apply punctuation_no_none|].
  destruct (str_eqb split_mode mode_length) eqn:El.
  { apply str_eqb_eq in El. unfold _split_by_length, py_range.
    destruct (split_length =? 0) eqn:E0.
    - apply Z.eqb_eq in E0. cbn. auto.
    - cbn. left. apply in_map_some. }
  destruct (str_eqb split_mode mode_regex) eqn:Er.
  { apply str_eqb_eq in Er. unfold _split_by_regex.
    destruct (re_compile pattern) as [p| |e] eqn:Ec.
    - cbn. destruct (Nat.eq_dec (p_groups p) O) as [Hg|Hg].
      + left. now apply re_split_no_groups.
      + right. eauto.
    - cbn. left. apply punctuation_no_none.
    - cbn. right. auto. }
  destruct (str_eqb split_mode mode_intelligent).
  { destruct (intelligent_total text) as [l ->]. cbn. left. apply in_map_some. }
  cbn. auto.
Qed.

(** C5: whatever the strategy, the text and the options, every string of
    the returned sequence is non-empty after trimming.  The call returns a
    sequence in all cases but three: a zero [split_length] in the
    fixed-length strategy, a user pattern with capturing groups (a group
    that takes no part in a match is [None], which has no [strip]), and a
    user pattern whose compilation raises something other than
    [re.error]. *)
Theorem segments_are_nonblank text split_mode max_segments split_length pattern keep :
  match outcome (split_to_batch re_compile text split_mode max_segments
                                split_length pattern keep) with
  | Ok out => Forall nonblank out
  | Raise e =>
      (split_mode = mode_length /\ split_length = 0 /\ e = ValueError)
      \/ (split_mode = mode_regex /\ e = AttributeError
          /\ exists p, re_compile pattern = Compiled p /\ p_groups p <> O)
      \/ (split_mode = mode_regex /\ re_compile pattern = CompileRaises e)
  end.
Proof.
  destruct (strip text) as [|c t] eqn:Hs.
  { rewrite split_to_batch_blank by exact Hs. cbn. constructor. }
  assert (Hne : strip text <> []) by (rewrite Hs; discriminate).
  rewrite split_to_batch_outcome by exact Hne.
  pose proof (dispatch_cases (strip text) split_mode split_length pattern keep) as Hd.
  destruct (outcome (dispatch _ _ _ _ _ _)) as [raw|e]; cbn [rbind];
    [|destruct Hd as [Hd|Hd]; auto].
  destruct (strip_nonblank raw) as [segs|e] eqn:Hsn; cbn [rbind].
  - apply strip_nonblank_sound in Hsn.
    destruct (outcome (truncate segs max_segments)) as [out|e] eqn:Ht.
    + eapply truncate_keeps; eauto.
    + unfold truncate in Ht. destruct (max_segments <? len segs);
        [rewrite outcome_bind in Ht|]; discriminate.
  - apply strip_nonblank_raise in Hsn as [-> Hin].
    destruct Hd as [Hd|[-> Hr]]; [contradiction | auto].
Qed.

(** C6: for a limit that is not negative (the contract asks for at least
    1), a returned sequence never has more than [max_segments] elements; and
    when the candidates left after line 95 are more than [max_segments], the
    call returns exactly the first [max_segments] of them, in order, and
    prints the warning with both counts. *)
Theorem output_truncated_to_limit text split_mode max_segments split_length
        pattern keep :
  0 <= max_segments ->
  (forall out,
      outcome (split_to_batch re_compile text split_mode max_segments
                              split_length pattern keep) = Ok out ->
      len out <= max_segments)
  /\ (forall raw segs,
         strip text <> [] ->
         outcome (dispatch re_compile (strip text) split_mode split_length
                           pattern keep) = Ok raw ->
         strip_nonblank raw = Ok segs ->
         max_segments < len segs ->
         outcome (split_to_batch re_compile text split_mode max_segments
                                 split_length pattern keep)
         = Ok (firstn (Z.to_nat max_segments) segs)
         /\ len (firstn (Z.to_nat max_segments) segs) = max_segments
         /\ In (PrintTruncated (len segs) max_segments)
               (output (split_to_batch re_compile text split_mode max_segments
                                       split_length pattern keep))).
Proof.
  intros Hmax. split.
  - intros out. destruct (strip text) as [|c t] eqn:Hs.
    { rewrite split_to_batch_blank by exact Hs. cbn. intros [= <-]. exact Hmax. }
    rewrite split_to_batch_outcome by (rewrite Hs; discriminate).
    destruct (outcome (dispatch _ _ _ _ _ _)) as [raw|e]; cbn [rbind];
      [|discriminate].
    destruct (strip_nonblank raw) as [segs|e]; cbn [rbind]; [|discriminate].
    rewrite truncate_outcome by exact Hmax. intros [= <-].
    now apply len_firstn_le.
  - intros raw segs Hne Hd Hs Hlt. repeat split.
    + rewrite split_to_batch_outcome by exact Hne. rewrite Hd. cbn [rbind].
      rewrite Hs. cbn [rbind]. now apply truncate_outcome.
    + unfold len in *. rewrite length_firstn. lia.
    + destruct (split_to_batch_output text split_mode max_segments split_length
                  pattern keep raw segs Hne Hd Hs) as [tail ->].
      apply in_or_app. right. apply in_or_app. left.
      rewrite truncate_output. apply Z.ltb_lt in Hlt. rewrite Hlt. now left.
Qed.

Lemma trimmed_stretches_nil p : trimmed_stretches p [] = [].
Proof.
  unfold trimmed_stretches, stretches_between.
  induction (combine (O :: map m_end (finditer p []))
                     (map m_start (finditer p []) ++ [length (@nil char)]))
    as [|[a b] l IH]; [reflexivity|].
  simpl. unfold substr at 1. rewrite skipn_nil, firstn_nil. exact IH.
Qed.

(** C4 (as amended): for a pattern that compiles and has no capturing
    group, the custom-regex strategy returns exactly the stretches of the
    trimmed text between the matches of the pattern, each trimmed, the blank
    ones dropped, in order, cut to the first [max_segments]. *)
Theorem regex_without_groups_gives_stretches text max_segments split_length
        pattern keep p :
  re_compile pattern = Compiled p ->
  p_groups p = O ->
  0 <= max_segments ->
  outcome (split_to_batch re_compile text mode_regex max_segments split_length
                          pattern keep)
  = Ok (firstn (Z.to_nat max_segments) (trimmed_stretches p (strip text))).
Proof.
  intros Hc Hg Hmax. destruct (strip text) as [|c t] eqn:Hs.
  { rewrite split_to_batch_blank by exact Hs.
    rewrite trimmed_stretches_nil, firstn_nil. reflexivity. }
  rewrite split_to_batch_outcome by (rewrite Hs; discriminate).
  rewrite Hs. unfold dispatch. cbn [str_eqb mode_regex mode_pipe mode_punctuation
    mode_length char_eqb N.eqb Pos.eqb andb].
  unfold _split_by_regex. rewrite Hc. cbn [ret outcome snd rbind].
  rewrite (re_split_stretches _ _ Hg), strip_nonblank_some. cbn [rbind].
  now apply truncate_outcome.
Qed.

End Pipeline.

(** ** Fixed-length strategy *)

Lemma slice_chunk {A} (l : list A) (a n : Z) :
  0 <= a -> 0 <= n ->
  slice l a (a + n) = firstn (Z.to_nat n) (skipn (Z.to_nat a) l).
Proof.
  intros Ha Hn. unfold slice, clamp, len.
  destruct (a <? 0) eqn:E1; [apply Z.ltb_lt in E1; lia|].
  destruct (a + n <? 0) eqn:E2; [apply Z.ltb_lt in E2; lia|].
  destruct (Z.le_gt_cases a (Z.of_nat (length l))) as [H|H].
  - rewrite (Z.min_l a) by lia.
    destruct (Z.le_gt_cases (a + n) (Z.of_nat (length l))) as [H'|H'].
    + rewrite Z.min_l by lia. f_equal. lia.
    + rewrite Z.min_r by lia.
      rewrite !firstn_all2; try reflexivity; rewrite length_skipn; lia.
  - rewrite !Z.min_r by lia. rewrite Z.sub_diag. cbn [Z.to_nat firstn].
    rewrite (skipn_all2 l) by lia. now rewrite firstn_nil.
Qed.

Lemma concat_chunks text n c :
  concat (map (chunk text n) (seq 0 c)) = firstn (c * n) text.
Proof.
  induction c as [|c IH]; [reflexivity|].
  rewrite seq_S, map_app, concat_app, IH. cbn [map concat plus].
  rewrite app_nil_r. unfold chunk.
  replace (S c * n)%nat with (c * n + n)%nat by lia.
  now rewrite firstn_add.
Qed.

Lemma split_by_length_chunks text n :
  1 <= n ->
  _split_by_length text n =
  Ok (map (chunk text (Z.to_nat n))
          (seq 0 (Z.to_nat (if 0 <? len text then (len text - 1) / n + 1 else 0)))).
Proof.
  intros Hn. unfold _split_by_length, py_range.
  destruct (n =? 0) eqn:E0; [apply Z.eqb_eq in E0; lia|].
  destruct (0 <? n) eqn:E1; [|apply Z.ltb_ge in E1; lia].
  cbn [rbind]. rewrite map_map. rewrite Z.sub_0_r. f_equal.
  apply map_ext. intros k. cbn [Z.add].
  rewrite slice_chunk by lia. unfold chunk.
  rewrite Z2Nat.inj_mul by lia. now rewrite Nat2Z.id.
Qed.

Lemma len_chunk text n k :
  len (chunk text n k) = Z.min (Z.of_nat n) (len text - Z.of_nat k * Z.of_nat n)
  \/ (len text < Z.of_nat k * Z.of_nat n /\ len (chunk text n k) = 0).
Proof.
  unfold chunk, len. rewrite length_firstn, length_skipn.
  destruct (Z.le_gt_cases (Z.of_nat k * Z.of_nat n) (Z.of_nat (length text))).
  - left. lia.
  - right. lia.
Qed.

(** C9: with [split_length >= 1] the fixed-length strategy returns the
    consecutive slices [text[k*split_length : (k+1)*split_length]] for
    k = 0, 1, ...: together they are the text, each has exactly
    [split_length] characters except possibly the last, which has at least
    one.  On "abcdefgh" with [split_length] 3 and a limit of 10 the node
    returns "abc", "def", "gh". *)
Theorem fixed_length_slices text split_length :
  1 <= split_length ->
  exists chunks,
    _split_by_length text split_length = Ok chunks
    /\ concat chunks = text
    /\ (forall k, (k < length chunks)%nat ->
          nth k chunks [] = slice text (Z.of_nat k * split_length)
                                  (Z.of_nat k * split_length + split_length)
          /\ 1 <= len (nth k chunks []) <= split_length
          /\ ((S k < length chunks)%nat -> len (nth k chunks []) = split_length))
    /\ (forall re_compile pattern keep,
          outcome (split_to_batch re_compile [97; 98; 99; 100; 101; 102; 103; 104]%N
                                  mode_length 10 3 pattern keep)
          = Ok [[97; 98; 99]; [100; 101; 102]; [103; 104]]%N).
Proof.
  intros Hn. rewrite (split_by_length_chunks text _ Hn).
  set (c := Z.to_nat (if 0 <? len text then (len text - 1) / split_length + 1 else 0)).
  set (n := Z.to_nat split_length).
  assert (Hdiv : len text <= Z.of_nat c * split_length
                 /\ (0 < len text -> (Z.of_nat c - 1) * split_length <= len text - 1)).
  { subst c. destruct (0 <? len text) eqn:E.
    - apply Z.ltb_lt in E.
      pose proof (Z.div_mod (len text - 1) split_length ltac:(lia)) as Hd.
      pose proof (Z.mod_pos_bound (len text - 1) split_length ltac:(lia)) as Hm.
      assert (0 <= (len text - 1) / split_length) by (apply Z.div_pos; lia).
      rewrite Z2Nat.id by lia. split; [nia | intros _; nia].
    - apply Z.ltb_ge in E. unfold len in *. cbn. lia. }
  destruct Hdiv as [Hcover Hlast].
  eexists. split; [reflexivity|]. split; [|split].
  - rewrite concat_chunks. apply firstn_all2.
    unfold len in Hcover. subst n. nia.
  - intros k Hk. rewrite length_map, length_seq in Hk.
    rewrite (nth_indep _ [] (chunk text n 0)) by (now rewrite length_map, length_seq).
    rewrite (map_nth (chunk text n)), seq_nth by exact Hk. cbn [plus].
    rewrite length_map, length_seq.
    assert (Hpos : 0 < len text).
    { destruct (Z.ltb_spec 0 (len text)); [assumption|]. subst c. cbn in Hk. lia. }
    specialize (Hlast Hpos).
    assert (Hkn : Z.of_nat k * Z.of_nat n <= len text - 1) by (subst n; nia).
    split; [|split].
    + rewrite slice_chunk by lia. unfold chunk. subst n.
      rewrite Z2Nat.inj_mul by lia. now rewrite Nat2Z.id.
    + destruct (len_chunk text n k) as [->|[? _]]; subst n; lia.
    + intros Hk'.
      assert (Z.of_nat (S k) * Z.of_nat n <= len text - 1) by (subst n; nia).
      destruct (len_chunk text n k) as [->|[? _]]; subst n; lia.
  - intros re_compile pattern keep. reflexivity.
Qed.

(** ** Intelligent strategy, first and second pass *)

Lemma in_lstrip x s : In x s -> isspace x = false -> In x (lstrip s).
Proof.
  intros Hin Hx. induction s as [|c s IH]; simpl in *; [contradiction|].
  destruct (isspace c) eqn:Ec.
  - destruct Hin as [->|Hin]; [congruence | auto].
  - exact Hin.
Qed.

(** A string with a character that is not white space is not blank. *)
Lemma nonblank_of_char x s : In x s -> isspace x = false -> nonblank s.
Proof.
  intros Hin Hx. unfold nonblank, strip, rstrip.
  assert (H : In x (rev (lstrip (rev (lstrip s))))).
  { apply -> in_rev. apply in_lstrip; [|exact Hx].
    apply -> in_rev. now apply in_lstrip. }
  intros E. rewrite E in H. contradiction.
Qed.

Lemma terminals_not_space x : mem_char x terminals = true -> isspace x = false.
Proof.
  unfold terminals, mem_char, char_eqb. intros H.
  repeat (apply orb_true_iff in H as [H|H];
          [apply N.eqb_eq in H; subst x; reflexivity|]).
  discriminate.
Qed.

(** A string that ends a run with one or more characters of [l]. *)
Lemma lang_run_has_closer (a : cset) l before s :
  lang (Cat (Plus a) (Plus (OneOf l))) before s ->
  exists x, In x s /\ mem_char x l = true.
Proof.
  simpl. intros (s1 & s2 & -> & _ & Hne & Hall).
  destruct s2 as [|x s2]; [congruence|]. inversion Hall; subst.
  exists x. split; [apply in_or_app; right; now left | assumption].
Qed.

Lemma primary_segments_nonblank text :
  Forall nonblank (re_findall primary_pattern text).
Proof.
  unfold re_findall, primary_pattern. cbn [compile_regex p_groups groups Nat.eqb].
  apply Forall_map.
  eapply Forall_impl; [|apply finditer_group_lang].
  intros m (s & before & -> & Hl).
  apply lang_run_has_closer in Hl as (x & Hin & Hx).
  apply (nonblank_of_char x); [exact Hin | now apply terminals_not_space].
Qed.

Lemma keep_nonblank_sound raw l :
  keep_nonblank raw = Ok l -> Forall nonblank l.
Proof.
  revert l; induction raw as [|[s|] raw IH]; simpl; intros l H.
  - injection H as <-. constructor.
  - destruct (keep_nonblank raw) as [tl|e]; simpl in H; [|discriminate].
    injection H as <-. specialize (IH tl eq_refl).
    destruct (truthy (strip s)) eqn:E; [|exact IH].
    constructor; [now apply truthy_true | exact IH].
  - discriminate.
Qed.

Lemma refine_nonblank segments refined :
  Forall nonblank segments -> refine segments = Ok refined -> Forall nonblank refined.
Proof.
  intros H. revert refined.
  induction H as [|seg segments Hseg _ IH]; intros refined; simpl.
  - intros [= <-]. constructor.
  - destruct (refine segments) as [tl|e].
    + specialize (IH tl eq_refl).
      destruct (100 <? len seg).
      * destruct (keep_nonblank (re_split secondary_pattern seg)) as [subs|e] eqn:E;
          simpl; [|discriminate].
        intros [= <-]. apply Forall_app. split; [|exact IH].
        now apply keep_nonblank_sound in E.
      * simpl. intros [= <-]. constructor; assumption.
    + destruct (100 <? len seg);
        [destruct (keep_nonblank (re_split secondary_pattern seg))|];
        simpl; discriminate.
Qed.

(** The intelligent strategy always returns, and what its third pass
    receives is a list of non-blank segments. *)
Lemma intelligent_refined text :
  exists refined,
    _split_intelligent text = Ok (merge_short refined) /\ Forall nonblank refined.
Proof.
  unfold _split_intelligent.
  set (segments := re_findall primary_pattern text).
  set (primary := if sum_len segments <? len text
                  then if truthy (strip (slice_from text (sum_len segments)))
                       then segments ++ [strip (slice_from text (sum_len segments))]
                       else segments
                  else segments).
  assert (Hp : Forall nonblank primary).
  { subst primary. pose proof (primary_segments_nonblank text) as Hs.
    fold segments in Hs.
    destruct (sum_len segments <? len text); [|exact Hs].
    destruct (truthy (strip (slice_from text (sum_len segments)))) eqn:E;
      [|exact Hs].
    apply Forall_app. split; [exact Hs|]. constructor; [|constructor].
    apply strip_nonblank_fixed. unfold nonblank. now apply truthy_true. }
  destruct (refine_total primary) as [refined Hr].
  exists refined. rewrite Hr. split; [reflexivity|].
  eapply refine_nonblank; eauto.
Qed.

(** ** Intelligent strategy, third pass *)

Lemma fold_left_snoc {A B} (f : A -> B -> A) l x a :
  fold_left f (l ++ [x]) a = f (fold_left f l a) x.
Proof. now rewrite fold_left_app. Qed.

Lemma len_app {A} (a b : list A) : len (a ++ b) = len a + len b.
Proof. unfold len. rewrite length_app. lia. Qed.

(** After at least one non-blank segment the buffer is not empty; after at
    least two, a segment has been finalized. *)
Lemma merge_state_filled pre :
  Forall nonblank pre ->
  (pre <> [] -> buffer_after pre <> [])
  /\ ((2 <= length pre)%nat -> fst (fold_left merge_step pre ([], [])) <> []).
Proof.
  unfold buffer_after.
  induction pre as [|x pre IH] using rev_ind; intros Hall.
  - split; [congruence | simpl; lia].
  - apply Forall_app in Hall as [Hpre Hx]. inversion Hx as [|? ? Hnb _]; subst.
    destruct (IH Hpre) as [IHt IHf]. clear IH.
    rewrite fold_left_snoc.
    destruct (fold_left merge_step pre ([], [])) as [f t] eqn:E.
    cbn [fst snd] in *. unfold merge_step.
    destruct ((len t + len (strip x) <? 10) && truthy f) eqn:Em; cbn [fst snd].
    + apply andb_true_iff in Em as [_ Hf]. apply truthy_true in Hf. split.
      * intros _ H. apply app_eq_nil in H as [_ H]. contradiction.
      * intros _. exact Hf.
    + split; [intros _; exact Hnb|].
      rewrite length_app. cbn [length]. intros Hlen.
      assert (Hp : pre <> []) by (destruct pre; cbn in Hlen; [lia | discriminate]).
      specialize (IHt Hp). apply truthy_true in IHt. rewrite IHt.
      intros H. apply app_eq_nil in H as [_ H]. discriminate.
Qed.

(** What is finalized stays: the output of the pass, from any state, begins
    with the segments already finalized. *)
Lemma merge_keeps_finalized post : forall f t,
  exists more,
    (let '(f', t') := fold_left merge_step post (f, t) in
     if truthy t' then f' ++ [t'] else f') = f ++ more.
Proof.
  induction post as [|x post IH]; intros f t; cbn [fold_left].
  - destruct (truthy t); [eauto | exists []; now rewrite app_nil_r].
  - unfold merge_step at 2.
    destruct ((len t + len (strip x) <? 10) && truthy f); [apply IH|].
    destruct (truthy t); cbv iota; [|apply IH].
    destruct (IH (f ++ [t]) (strip x)) as [more Hm].
    exists (t :: more). etransitivity; [exact Hm|]. now rewrite <- app_assoc.
Qed.

(** A buffer that is not empty is the beginning of the next output
    element, whatever follows. *)
Lemma buffer_starts_element post : forall f t,
  t <> [] ->
  exists merged more,
    (let '(f', t') := fold_left merge_step post (f, t) in
     if truthy t' then f' ++ [t'] else f') = f ++ (t ++ merged) :: more.
Proof.
  induction post as [|x post IH]; intros f t Ht; cbn [fold_left].
  - apply truthy_true in Ht. rewrite Ht. exists [], []. now rewrite app_nil_r.
  - unfold merge_step at 2.
    destruct ((len t + len (strip x) <? 10) && truthy f).
    + destruct (IH f (t ++ strip x)) as (merged & more & Hm).
      { destruct t; [congruence | discriminate]. }
      exists (strip x ++ merged), more. etransitivity; [exact Hm|].
      now rewrite <- app_assoc.
    + pose proof Ht as Ht'. apply truthy_true in Ht'. rewrite Ht'. cbv iota.
      destruct (merge_keeps_finalized post (f ++ [t]) (strip x)) as [more Hm].
      exists [], more. etransitivity; [exact Hm|].
      now rewrite <- app_assoc, app_nil_r.
Qed.

(** C3 (as amended): the third pass, at the segment [seg] that follows the
    refined segments [pre].  (1) [seg], trimmed, is appended to the buffer
    exactly when buffer and segment together are under 10 characters and a
    segment has already been finalized; otherwise the non-empty buffer is
    finalized and the buffer restarts with the segment.  (2) At the end the
    non-empty buffer is finalized.  (3) From the third refined segment on, a
    segment that is under 10 characters together with the buffer is merged:
    whatever follows it, in the output it continues the element that the
    buffer begins and does not begin an element.  (4) The first two refined
    segments are never merged with each other: whatever follows them, the
    first is the first output element, alone, and the second begins the
    second output element (later segments may be merged after it).  (5) The
    strategy always returns the result of this pass on a list of refined
    segments none of which is blank, so (3) and (4) apply to every text. *)
Theorem merge_pass_rule (pre : list str) (seg : str) :
  let final_segments := fst (fold_left merge_step pre ([], [])) in
  let temp := buffer_after pre in
  let flushed := if truthy temp then final_segments ++ [temp] else final_segments in
  fold_left merge_step (pre ++ [seg]) ([], [])
  = (if (len temp + len (strip seg) <? 10) && truthy final_segments
     then (final_segments, temp ++ strip seg)
     else (flushed, strip seg))
  /\ merge_short pre = flushed
  /\ ((2 <= length pre)%nat -> Forall nonblank pre ->
      len temp + len (strip seg) < 10 ->
      merge_short pre = final_segments ++ [temp]
      /\ merge_short (pre ++ [seg]) = final_segments ++ [temp ++ strip seg]
      /\ merged_count (pre ++ [seg]) = merged_count pre
      /\ temp <> []
      /\ forall post, exists merged more,
           merge_short (pre ++ seg :: post)
           = final_segments ++ (temp ++ strip seg ++ merged) :: more)
  /\ ((length pre <= 1)%nat -> Forall nonblank pre -> nonblank seg ->
      merge_short (pre ++ [seg]) = map strip (pre ++ [seg]))
  /\ (forall first second rest, nonblank first -> nonblank second ->
      exists merged more,
        merge_short (first :: second :: rest)
        = strip first :: (strip second ++ merged) :: more)
  /\ (forall text, exists refined,
         _split_intelligent text = Ok (merge_short refined)
         /\ Forall nonblank refined).
Proof.
  cbv zeta. unfold buffer_after, merged_count.
  assert (Hshort : forall l, merge_short l =
            (let '(f', t') := fold_left merge_step l ([], []) in
             if truthy t' then f' ++ [t'] else f')) by reflexivity.
  rewrite fold_left_snoc.
  destruct (fold_left merge_step pre ([], [])) as [f t] eqn:E. cbn [fst snd].
  split; [reflexivity|]. split; [rewrite Hshort, E; reflexivity|].
  split; [|split; [|split; [|exact intelligent_refined]]].
  - intros Hlen Hall Hshortseg.
    destruct (merge_state_filled pre Hall) as [Ht Hf].
    unfold buffer_after in Ht. rewrite E in Ht, Hf. cbn [fst snd] in Ht, Hf.
    specialize (Hf Hlen).
    assert (Hp : pre <> []) by (destruct pre; cbn in Hlen; [lia | discriminate]).
    specialize (Ht Hp).
    assert (Hstep : merge_step (f, t) seg = (f, t ++ strip seg)).
    { unfold merge_step. apply Z.ltb_lt in Hshortseg. rewrite Hshortseg.
      apply truthy_true in Hf. now rewrite Hf. }
    assert (Htt : truthy (t ++ strip seg) = true)
      by (destruct t; [congruence | reflexivity]).
    assert (Ht' : truthy t = true) by now apply truthy_true.
    split; [rewrite Hshort, E, Ht'; reflexivity|].
    split; [rewrite Hshort, fold_left_snoc, E, Hstep, Htt; reflexivity|].
    split.
    { rewrite !Hshort, fold_left_snoc, E, Hstep, Htt, Ht'.
      now rewrite !length_app. }
    split; [exact Ht|].
    intros post. rewrite Hshort, fold_left_app, E. cbn [fold_left].
    rewrite Hstep.
    destruct (buffer_starts_element post f (t ++ strip seg)) as (merged & more & Hm).
    { destruct t; [congruence | discriminate]. }
    exists merged, more. etransitivity; [exact Hm|]. now rewrite <- app_assoc.
  - intros Hlen Hall Hseg. apply truthy_true in Hseg. rewrite Hshort.
    destruct pre as [|a [|b pre]]; [| |cbn in Hlen; lia].
    + injection E as <- <-. cbn [app fold_left]. unfold merge_step. cbn [truthy].
      rewrite andb_false_r, Hseg. reflexivity.
    + inversion Hall as [|? ? Ha _]; subst. apply truthy_true in Ha.
      cbn in E. rewrite andb_false_r in E. injection E as <- <-.
      cbn [app fold_left]. unfold merge_step. cbn [truthy andb].
      rewrite !andb_false_r, Ha, Hseg. reflexivity.
  - intros first second rest Hfirst Hsecond. rewrite Hshort. cbn [fold_left].
    apply truthy_true in Hfirst. pose proof Hsecond as Hs2.
    unfold merge_step at 2 3. cbn [truthy]. rewrite !andb_false_r.
    cbn [truthy]. rewrite Hfirst. cbn [app].
    destruct (buffer_starts_element rest [strip first] (strip second) Hs2)
      as (merged & more & Hm).
    exists merged, more. exact Hm.
Qed.

(** ** Punctuation strategy, what [findall] hands over *)

(** Every segment matched with [keep_delimiter] is a non-empty run of
    characters that are not delimiters followed by a non-empty run of
    delimiters. *)
Lemma punctuation_keep_segments_shape text :
  Forall (fun seg =>
            exists body marks,
              seg = body ++ marks /\ body <> [] /\ marks <> []
              /\ Forall (fun x => mem_char x delimiters = false) body
              /\ Forall (fun x => mem_char x delimiters = true) marks)
         (re_findall punctuation_keep_pattern text).
Proof.
  unfold re_findall, punctuation_keep_pattern.
  cbn [compile_regex p_groups groups Nat.eqb plus]. apply Forall_map.
  eapply Forall_impl; [|apply finditer_lang].
  intros m (before & s1 & s2 & -> & (Hn1 & H1) & (Hn2 & H2)).
  exists s1, s2. repeat split; auto.
  eapply Forall_impl; [|exact H1]. cbn. intros x Hx.
  now apply negb_true_iff in Hx.
Qed.

(** ** Punctuation strategy on concrete texts *)

(** C1: with [keep_delimiter] false the punctuation strategy splits after
    each delimiter with a look-behind, which consumes only the white space
    that follows: on 你好。世界！ the pieces are 你好。 and 世界！ (and an
    empty tail), so the node returns the two sentences with their
    delimiters, not 你好 and 世界. *)
Theorem punctuation_split_retains_delimiters :
  finditer punctuation_split_pattern nihao_shijie
  = [ {| m_start := 3; m_end := 3; m_caps := [] |};
      {| m_start := 6; m_end := 6; m_caps := [] |} ]
  /\ _split_by_punctuation nihao_shijie false
     = [Some [20320; 22909; 12290]; Some [19990; 30028; 65281]; Some []]%N
  /\ (forall re_compile split_length pattern,
        outcome (split_to_batch re_compile nihao_shijie mode_punctuation 10
                                split_length pattern false)
        = Ok [[20320; 22909; 12290]; [19990; 30028; 65281]]%N)
  /\ (forall re_compile split_length pattern,
        outcome (split_to_batch re_compile nihao_shijie mode_punctuation 10
                                split_length pattern false)
        <> Ok [[20320; 22909]; [19990; 30028]]%N).
Proof.
  repeat split; try reflexivity.
  intros re_compile split_length pattern. vm_compute. discriminate.
Qed.

(** C2: with [keep_delimiter] true, [last_match_end] is the sum of the
    lengths of the matches, which is the end of the last match only when the
    first match starts at 0.  On ".a.b" the only match is "a." (positions 1
    to 3) and the unmatched tail is "b", but the sum is 2 and the appended
    segment is [text[2:]] = ".b", which repeats the delimiter already
    emitted.  On ".a." nothing remains after the match, yet "." is
    appended. *)
Theorem leading_delimiter_shifts_remainder :
  finditer punctuation_keep_pattern [46; 97; 46; 98]%N
  = [ {| m_start := 1; m_end := 3; m_caps := [] |} ]
  /\ _split_by_punctuation [46; 97; 46; 98]%N true
     = [Some [97; 46]; Some [46; 98]]%N
  /\ (forall re_compile split_length pattern,
        outcome (split_to_batch re_compile [46; 97; 46; 98]%N mode_punctuation 10
                                split_length pattern true)
        = Ok [[97; 46]; [46; 98]]%N)
  /\ finditer punctuation_keep_pattern [46; 97; 46]%N
     = [ {| m_start := 1; m_end := 3; m_caps := [] |} ]
  /\ _split_by_punctuation [46; 97; 46]%N true = [Some [97; 46]; Some [46]]%N.
Proof.
  repeat split; reflexivity.
Qed.

(** ** Counterexamples *)

(** The consequence drawn in C3 as it is written: a segment that is not the
    very first and is under 10 characters together with the buffer (at the
    second segment the buffer is the previous segment) would start no output
    element.  It fails at the second segment: "a。" then "b。" give two
    elements. *)
Lemma second_fragment_stands_alone :
  ~ (forall pre seg,
        pre <> [] ->
        len (buffer_after pre) + len (strip seg) < 10 ->
        merged_count (pre ++ [seg]) = merged_count pre).
Proof.
  intros H.
  specialize (H [[97; 12290]]%N [98; 12290]%N).
  assert (H1 : [[97; 12290]]%N <> @nil str) by discriminate.
  assert (H2 : len (buffer_after [[97; 12290]]%N) + len (strip [98; 12290]%N) < 10)
    by (vm_compute; reflexivity).
  specialize (H H1 H2). vm_compute in H. discriminate.
Qed.

(** The same input through the whole strategy. *)
Example intelligent_two_short_sentences :
  _split_intelligent [97; 12290; 98; 12290]%N = Ok [[97; 12290]; [98; 12290]]%N.
Proof. reflexivity. Qed.

(** C4 as it is written, for any pattern that compiles: it fails for a
    pattern with a capturing group, whose text [re.split] returns too:
    "a,b" split by "(,)" gives "a", ",", "b". *)
Lemma regex_group_text_is_returned :
  ~ (forall re_compile text pattern p max_segments split_length keep,
        re_compile pattern = Compiled p ->
        0 <= max_segments ->
        outcome (split_to_batch re_compile text mode_regex max_segments
                                split_length pattern keep)
        = Ok (firstn (Z.to_nat max_segments) (trimmed_stretches p (strip text)))).
Proof.
  intros H.
  specialize (H example_compile [97; 44; 98]%N [40; 44; 41]%N
                (compile_regex (Grp 1 (Chr (OneOf [44%N])))) 10 50 true eq_refl
                ltac:(lia)).
  vm_compute in H. discriminate.
Qed.

Example regex_group_split :
  outcome (split_to_batch example_compile [97; 44; 98]%N mode_regex 10 50
                          [40; 44; 41]%N true)
  = Ok [[97]; [44]; [98]]%N
  /\ trimmed_stretches (compile_regex (Grp 1 (Chr (OneOf [44%N])))) [97; 44; 98]%N
     = [[97]; [98]]%N.
Proof. split; reflexivity. Qed.

(** A group that takes no part in a match is [None]; line 95 then raises:
    "xbx" split by "(a)|b". *)
Example regex_optional_group_raises :
  re_split (compile_regex (Alt (Grp 1 (Chr (OneOf [97%N]))) (Chr (OneOf [98%N]))))
           [120; 98; 120]%N
  = [Some [120%N]; None; Some [120%N]]
  /\ split_to_batch example_compile [120; 98; 120]%N mode_regex 10 50
                    [40; 97; 41; 124; 98]%N true
     = ([], Raise AttributeError).
Proof. split; reflexivity. Qed.


Example overflowing_pattern_raises :
  split_to_batch example_compile [97; 12290; 98; 65281]%N mode_regex 10 50
                 huge_repeat true = ([], Raise OverflowError)
  /\ outcome (split_to_batch example_compile [97; 12290; 98; 65281]%N
                             mode_punctuation 10 50 huge_repeat true)
     = Ok [[97; 12290]; [98; 65281]]%N.
Proof. split; reflexivity. Qed.

(** ** The theorems at concrete inputs *)

Lemma blank_text_witness :
  strip [32; 10; 12288]%N = []
  /\ 1 <= 10
  /\ split_to_batch example_compile [32; 10; 12288]%N mode_intelligent 10 50 [] true
     = ([], Ok []).
Proof.
  split; [reflexivity|]. split; [lia|].
  apply (blank_text_gives_empty example_compile); [reflexivity | lia].
Defined.

Lemma unknown_mode_witness :
  [97%N] <> []
  /\ ~ In [120%N] split_modes
  /\ split_to_batch example_compile [97%N] [120%N] 10 50 [] true = ([], Ok []).
Proof.
  assert (H1 : [97%N] <> @nil char) by discriminate.
  assert (H2 : ~ In [120%N] split_modes).
  { simpl. intros [H|[H|[H|[H|[H|[]]]]]]; discriminate H. }
  split; [exact H1|]. split; [exact H2|].
  apply (unknown_mode_gives_empty example_compile [97%N] [120%N] 10 50 [] true H1 H2).
  lia.
Defined.


Lemma truncation_witness :
  0 <= 2
  /\ outcome (split_to_batch example_compile [97; 98; 99; 100; 101; 102; 103; 104]%N
                             mode_length 2 3 [] true)
     = Ok (firstn 2 [[97; 98; 99]; [100; 101; 102]; [103; 104]]%N)
  /\ In (PrintTruncated 3 2)
        (output (split_to_batch example_compile
                                [97; 98; 99; 100; 101; 102; 103; 104]%N
                                mode_length 2 3 [] true)).
Proof.
  assert (H0 : 0 <= 2) by lia.
  split; [exact H0|].
  destruct (output_truncated_to_limit example_compile
              [97; 98; 99; 100; 101; 102; 103; 104]%N mode_length 2 3 [] true H0)
    as [_ H].
  specialize (H (map Some [[97; 98; 99]; [100; 101; 102]; [103; 104]]%N)
                [[97; 98; 99]; [100; 101; 102]; [103; 104]]%N).
  assert (Hne : strip [97; 98; 99; 100; 101; 102; 103; 104]%N <> []) by discriminate.
  destruct (H Hne eq_refl eq_refl ltac:(vm_compute; reflexivity)) as (Ha & _ & Hc).
  split; [exact Ha | exact Hc].
Defined.

Lemma regex_without_groups_witness :
  example_compile [44%N] = Compiled (compile_regex (Chr (OneOf [44%N])))
  /\ p_groups (compile_regex (Chr (OneOf [44%N]))) = O
  /\ 0 <= 10
  /\ outcome (split_to_batch example_compile [97; 44; 98; 32; 44; 32; 99]%N
                             mode_regex 10 50 [44%N] true)
     = Ok (firstn (Z.to_nat 10)
                  (trimmed_stretches (compile_regex (Chr (OneOf [44%N])))
                                     (strip [97; 44; 98; 32; 44; 32; 99]%N))).
Proof.
  split; [reflexivity|]. split; [reflexivity|]. split; [lia|].
  apply (regex_without_groups_gives_stretches example_compile);
    [reflexivity | reflexivity | lia].
Defined.

Lemma fixed_length_witness :
  1 <= 3
  /\ exists chunks,
       _split_by_length [97; 98; 99; 100; 101; 102; 103; 104]%N 3 = Ok chunks
       /\ concat chunks = [97; 98; 99; 100; 101; 102; 103; 104]%N.
Proof.
  assert (H : 1 <= 3) by lia.
  split; [exact H|].
  destruct (fixed_length_slices [97; 98; 99; 100; 101; 102; 103; 104]%N 3 H)
    as (chunks & H1 & H2 & _).
  exists chunks. split; [exact H1 | exact H2].
Defined.

Lemma merge_pass_witness :
  (2 <= length [[20320; 22909; 12290]; [19990; 30028; 65281]]%N)%nat
  /\ Forall nonblank [[20320; 22909; 12290]; [19990; 30028; 65281]]%N
  /\ len (buffer_after [[20320; 22909; 12290]; [19990; 30028; 65281]]%N)
     + len (strip [97; 12290]%N) < 10
  /\ merged_count ([[20320; 22909; 12290]; [19990; 30028; 65281]]%N
                   ++ [[97; 12290]%N])
     = merged_count [[20320; 22909; 12290]; [19990; 30028; 65281]]%N
  /\ _split_intelligent (nihao_shijie ++ [97; 12290]%N)
     = Ok [[20320; 22909; 12290]; [19990; 30028; 65281; 97; 12290]]%N.
Proof.
  assert (H1 : (2 <= length [[20320; 22909; 12290]; [19990; 30028; 65281]]%N)%nat)
    by (simpl; lia).
  assert (H2 : Forall nonblank [[20320; 22909; 12290]; [19990; 30028; 65281]]%N)
    by (repeat constructor; discriminate).
  assert (H3 : len (buffer_after [[20320; 22909; 12290]; [19990; 30028; 65281]]%N)
               + len (strip [97; 12290]%N) < 10) by (vm_compute; reflexivity).
  split; [exact H1|]. split; [exact H2|]. split; [exact H3|].
  destruct (merge_pass_rule [[20320; 22909; 12290]; [19990; 30028; 65281]]%N
                            [97; 12290]%N)
    as (_ & _ & H & _ & _ & _).
  destruct (H H1 H2 H3) as (_ & _ & Hc & _).
  split; [exact Hc | reflexivity].
Defined.

(** * Further properties of the node *)

(** ** Line 95: what every strategy's candidates become *)

Lemma strip_nonblank_trimmed raw segs :
  strip_nonblank raw = Ok segs -> Forall trimmed segs.
Proof.
  revert segs; induction raw as [|[s|] raw IH]; simpl; intros segs H.
  - injection H as <-. constructor.
  - destruct (strip_nonblank raw) as [tl|e]; simpl in H; [|discriminate].
    injection H as <-. specialize (IH tl eq_refl).
    destruct (truthy (strip s)); [|exact IH].
    constructor; [apply strip_idempotent | exact IH].
  - discriminate.
Qed.

(** Every segment that [split_to_batch] returns is already trimmed: it has
    no white space at either end, whatever the strategy and the options. *)
Theorem returned_segments_are_trimmed re_compile text split_mode max_segments
        split_length pattern keep out :
  outcome (split_to_batch re_compile text split_mode max_segments split_length
                          pattern keep) = Ok out ->
  Forall trimmed out.
Proof.
  destruct (strip text) as [|c t] eqn:Hs.
  { rewrite split_to_batch_blank by exact Hs. cbn. intros [= <-]. constructor. }
  rewrite split_to_batch_outcome by (rewrite Hs; discriminate).
  destruct (outcome (dispatch _ _ _ _ _ _)) as [raw|e]; cbn [rbind];
    [|discriminate].
  destruct (strip_nonblank raw) as [segs|e] eqn:Hsn; cbn [rbind]; [|discriminate].
  intros H. eapply truncate_keeps; [|exact H].
  now apply strip_nonblank_trimmed in Hsn.
Qed.

Lemma trimmed_segments_witness :
  outcome (split_to_batch example_compile [32; 97; 32; 124; 32; 98; 32]%N mode_pipe
                          10 50 [] true) = Ok [[97%N]; [98%N]]
  /\ Forall trimmed [[97%N]; [98%N]].
Proof.
  split; [reflexivity|].
  apply (returned_segments_are_trimmed example_compile
           [32; 97; 32; 124; 32; 98; 32]%N mode_pipe 10 50 [] true).
  reflexivity.
Defined.

(** ** Fixed-length strategy: the step of [range] *)

(** A [split_length] of zero makes [range] raise [ValueError]: on a text
    that is not blank the fixed-length strategy fails with that exception
    and prints nothing. *)
Theorem zero_split_length_raises re_compile text max_segments pattern keep :
  strip text <> [] ->
  split_to_batch re_compile text mode_length max_segments 0 pattern keep
  = ([], Raise ValueError).
Proof.
  intros H. unfold split_to_batch. apply truthy_true in H. rewrite H.
  reflexivity.
Qed.

Lemma zero_split_length_witness :
  strip [97; 98]%N <> []
  /\ split_to_batch example_compile [97; 98]%N mode_length 10 0 [] true
     = ([], Raise ValueError).
Proof.
  assert (H : strip [97; 98]%N <> []) by discriminate.
  split; [exact H|].
  apply (zero_split_length_raises example_compile [97; 98]%N 10 [] true H).
Defined.

(** A negative [split_length] makes [range] empty: the fixed-length
    strategy then yields no segment at all, without raising, and with a limit
    that is not negative nothing is printed. *)
Theorem negative_split_length_gives_empty re_compile text max_segments
        split_length pattern keep :
  split_length < 0 ->
  0 <= max_segments ->
  split_to_batch re_compile text mode_length max_segments split_length pattern keep
  = ([], Ok []).
Proof.
  intros Hneg Hmax. unfold split_to_batch.
  destruct (truthy (strip text)); [|reflexivity]. cbn [negb].
  assert (Hd : dispatch re_compile (strip text) mode_length split_length pattern keep
               = ([], Ok [])).
  { unfold dispatch. cbn [str_eqb mode_length mode_pipe mode_punctuation
      char_eqb N.eqb Pos.eqb andb].
    unfold _split_by_length, py_range.
    destruct (split_length =? 0) eqn:E0; [apply Z.eqb_eq in E0; lia|].
    destruct (0 <? split_length) eqn:E1; [apply Z.ltb_lt in E1; lia|].
    destruct (len (strip text) <? 0) eqn:E2;
      [apply Z.ltb_lt in E2; unfold len in E2; lia|].
    reflexivity. }
  rewrite Hd. cbn [bind lift strip_nonblank app]. unfold truncate.
  replace (max_segments <? len []) with false; [reflexivity|].
  symmetry. apply Z.ltb_ge. exact Hmax.
Qed.

Lemma negative_split_length_witness :
  -3 < 0 /\ 0 <= 10
  /\ split_to_batch example_compile [97; 98; 99]%N mode_length 10 (-3) [] true
     = ([], Ok []).
Proof.
  assert (H1 : -3 < 0) by lia. assert (H2 : 0 <= 10) by lia.
  split; [exact H1|]. split; [exact H2|].
  apply (negative_split_length_gives_empty example_compile [97; 98; 99]%N 10 (-3)
           [] true H1 H2).
Defined.

(** ** The diagnostic channel *)

Lemma previews_app a b : previews (a ++ b) = previews a ++ previews b.
Proof.
  induction a as [|d a IH]; simpl; [reflexivity|].
  destruct d; simpl; now rewrite ?IH.
Qed.

Lemma truncations_app a b : truncations (a ++ b) = truncations a ++ truncations b.
Proof.
  induction a as [|d a IH]; simpl; [reflexivity|].
  destruct d; simpl; now rewrite ?IH.
Qed.

Lemma shown_line seg :
  slice_to seg 60 ++ (if 60 <? len seg then ellipsis else []) = shown seg.
Proof.
  unfold shown. destruct (Z.leb_spec (len seg) 60) as [Hle|Hgt].
  - replace (60 <? len seg) with false by (symmetry; apply Z.ltb_ge; lia).
    rewrite app_nil_r, slice_to_firstn by lia.
    apply firstn_all2. unfold len in Hle. lia.
  - replace (60 <? len seg) with true by (symmetry; apply Z.ltb_lt; lia).
    now rewrite slice_to_firstn by lia.
Qed.

Lemma print_previews_output segs : forall a,
  output (print_previews (Z.of_nat a) segs) =
  map (fun '(k, seg) => PrintPreview (Z.of_nat k + 1) (shown seg))
      (combine (seq a (length segs)) segs).
Proof.
  induction segs as [|seg segs IH]; intros a; [reflexivity|].
  cbn [print_previews]. rewrite output_bind. cbn [print output outcome fst snd app].
  rewrite shown_line. cbn [length seq combine map]. f_equal.
  replace (Z.of_nat a + 1) with (Z.of_nat (S a)) by lia.
  apply IH.
Qed.

Lemma report_output segs :
  output (report segs) =
  if len segs =? 0 then []
  else [PrintRule; PrintTotal (len segs); PrintRule]
       ++ output (print_previews 0 (slice_to segs 5))
       ++ (if 5 <? len segs then [PrintMore (len segs - 5)] else [])
       ++ [PrintRule; PrintHandoff; PrintCalls (len segs)].
Proof.
  unfold report. destruct (len segs =? 0); [reflexivity|].
  repeat (rewrite output_bind; cbn [print output outcome fst snd app]).
  rewrite print_previews_outcome.
  repeat (rewrite output_bind; cbn [print output outcome fst snd app]).
  f_equal. f_equal. f_equal. f_equal.
  destruct (5 <? len segs); cbn [print ret output outcome fst snd app];
    repeat (rewrite output_bind; cbn [print ret output outcome fst snd app]);
    reflexivity.
Qed.

Lemma dispatch_output re_compile text split_mode split_length pattern keep :
  output (dispatch re_compile text split_mode split_length pattern keep) = []
  \/ output (dispatch re_compile text split_mode split_length pattern keep)
     = [PrintRegexError].
Proof.
  unfold dispatch.
  destruct (str_eqb split_mode mode_pipe); [now left|].
  destruct (str_eqb split_mode mode_punctuation); [now left|].
  destruct (str_eqb split_mode mode_length); [now left|].
  destruct (str_eqb split_mode mode_regex).
  { unfold _split_by_regex.
    destruct (re_compile pattern); [now left | now right | now left]. }
  destruct (str_eqb split_mode mode_intelligent); now left.
Qed.

(** The log of a call that went through: what the strategy printed, then
    the truncation warning, then the summary of the returned sequence. *)
Lemma split_to_batch_log re_compile text split_mode max_segments split_length
      pattern keep raw segs out :
  strip text <> [] ->
  outcome (dispatch re_compile (strip text) split_mode split_length pattern keep)
  = Ok raw ->
  strip_nonblank raw = Ok segs ->
  outcome (truncate segs max_segments) = Ok out ->
  output (split_to_batch re_compile text split_mode max_segments split_length
                         pattern keep)
  = output (dispatch re_compile (strip text) split_mode split_length pattern keep)
    ++ output (truncate segs max_segments) ++ output (report out).
Proof.
  intros Hne Hd Hs Ht. unfold split_to_batch.
  apply truthy_true in Hne. rewrite Hne. cbn [negb].
  rewrite output_bind, Hd. rewrite output_bind. cbn [lift outcome output fst snd].
  rewrite Hs. rewrite output_bind. cbn [app]. now rewrite Ht.
Qed.

Lemma truncations_report segs : truncations (output (report segs)) = [].
Proof.
  rewrite report_output. destruct (len segs =? 0); [reflexivity|].
  rewrite (print_previews_output _ 0). cbn [app truncations].
  rewrite !truncations_app.
  assert (H : forall l, truncations
                (map (fun '(k, seg) => PrintPreview (Z.of_nat k + 1) (shown seg)) l)
              = []).
  { induction l as [|[k s'] l IH]; [reflexivity | exact IH]. }
  rewrite H. destruct (5 <? len segs); reflexivity.
Qed.

Lemma combine_seq_firstn {A} n : forall a (l : list A),
  combine (seq a (length (firstn n l))) (firstn n l) = combine (seq a n) l.
Proof.
  induction n as [|n IH]; intros a [|x l]; try reflexivity.
  cbn. f_equal. apply IH.
Qed.

Lemma previews_report segs :
  previews (output (report segs)) =
  map (fun '(k, seg) => (Z.of_nat k + 1, shown seg))
      (combine (seq 0 5) segs).
Proof.
  rewrite report_output. destruct (len segs =? 0) eqn:E.
  { apply Z.eqb_eq in E. destruct segs; [reflexivity | discriminate]. }
  rewrite (print_previews_output _ 0). cbn [app previews].
  rewrite !previews_app.
  assert (H : forall l,
             previews (map (fun '(k, seg) =>
                              PrintPreview (Z.of_nat k + 1) (shown seg)) l)
             = map (fun '(k, seg) => (Z.of_nat k + 1, shown seg)) l).
  { induction l as [|[k s'] l IH]; [reflexivity|]. cbn. now rewrite IH. }
  rewrite H.
  replace (previews (if 5 <? len segs then [PrintMore (len segs - 5)] else []))
    with (@nil (Z * str)) by (destruct (5 <? len segs); reflexivity).
  cbn [previews app]. rewrite app_nil_r.
  rewrite slice_to_firstn by lia. change (Z.to_nat 5) with 5%nat.
  now rewrite combine_seq_firstn.
Qed.

Lemma split_to_batch_parts re_compile text split_mode max_segments split_length
      pattern keep out :
  strip text <> [] ->
  outcome (split_to_batch re_compile text split_mode max_segments split_length
                          pattern keep) = Ok out ->
  exists raw segs,
    outcome (dispatch re_compile (strip text) split_mode split_length pattern keep)
    = Ok raw
    /\ strip_nonblank raw = Ok segs
    /\ outcome (truncate segs max_segments) = Ok out.
Proof.
  intros Hne. rewrite split_to_batch_outcome by exact Hne.
  destruct (outcome (dispatch _ _ _ _ _ _)) as [raw|e]; cbn [rbind];
    [|discriminate].
  destruct (strip_nonblank raw) as [segs|e] eqn:Hs; cbn [rbind]; [|discriminate].
  eauto.
Qed.

Lemma len_shown seg : len (shown seg) <= 63.
Proof.
  unfold shown. destruct (Z.leb_spec (len seg) 60); [lia|].
  unfold len in *. rewrite length_app, length_firstn. cbn [ellipsis length]. lia.
Qed.

(** When the candidates left after line 95 are not more than
    [max_segments], all of them are returned, in order, and no truncation
    warning is printed. *)
Theorem within_limit_returns_all re_compile text split_mode max_segments
        split_length pattern keep raw segs :
  strip text <> [] ->
  outcome (dispatch re_compile (strip text) split_mode split_length pattern keep)
  = Ok raw ->
  strip_nonblank raw = Ok segs ->
  len segs <= max_segments ->
  outcome (split_to_batch re_compile text split_mode max_segments split_length
                          pattern keep) = Ok segs
  /\ truncations (output (split_to_batch re_compile text split_mode max_segments
                                         split_length pattern keep)) = [].
Proof.
  intros Hne Hd Hs Hle.
  assert (Ht : truncate segs max_segments = ([], Ok segs)).
  { unfold truncate. replace (max_segments <? len segs) with false; [reflexivity|].
    symmetry. apply Z.ltb_ge. exact Hle. }
  split.
  - rewrite split_to_batch_outcome by exact Hne. rewrite Hd. cbn [rbind].
    rewrite Hs. cbn [rbind]. now rewrite Ht.
  - rewrite (split_to_batch_log _ _ _ _ _ _ _ raw segs segs Hne Hd Hs)
      by now rewrite Ht.
    rewrite Ht. cbn [output fst app]. rewrite truncations_app, truncations_report.
    destruct (dispatch_output re_compile (strip text) split_mode split_length
                              pattern keep) as [-> | ->]; reflexivity.
Qed.

Lemma within_limit_witness :
  strip [97; 124; 98]%N <> []
  /\ len [[97%N]; [98%N]] <= 2
  /\ outcome (split_to_batch example_compile [97; 124; 98]%N mode_pipe 2 50 [] true)
     = Ok [[97%N]; [98%N]]
  /\ truncations (output (split_to_batch example_compile [97; 124; 98]%N mode_pipe
                                         2 50 [] true)) = [].
Proof.
  assert (H1 : strip [97; 124; 98]%N <> []) by discriminate.
  assert (H2 : len [[97%N]; [98%N]] <= 2) by (vm_compute; discriminate).
  split; [exact H1|]. split; [exact H2|].
  apply (within_limit_returns_all example_compile [97; 124; 98]%N mode_pipe 2 50 []
           true [Some [97%N]; Some [98%N]] [[97%N]; [98%N]] H1 eq_refl eq_refl H2).
Defined.

(** The summary printed after a successful call previews the returned
    segments themselves: the first five (fewer if fewer are returned),
    numbered from 1; the text shown for a segment is the segment itself when
    it has at most 60 characters and otherwise its first 60 characters
    followed by three dots, so never more than 63 characters of a segment
    are shown. *)
Theorem summary_previews_returned_segments re_compile text split_mode max_segments
        split_length pattern keep out :
  outcome (split_to_batch re_compile text split_mode max_segments split_length
                          pattern keep) = Ok out ->
  previews (output (split_to_batch re_compile text split_mode max_segments
                                   split_length pattern keep))
  = map (fun '(k, seg) => (Z.of_nat k + 1, shown seg)) (combine (seq 0 5) out)
  /\ length (previews (output (split_to_batch re_compile text split_mode
                                 max_segments split_length pattern keep)))
     = Nat.min 5 (length out)
  /\ Forall (fun '(_, shown_text) => len shown_text <= 63)
            (previews (output (split_to_batch re_compile text split_mode
                                 max_segments split_length pattern keep))).
Proof.
  intros Hout.
  assert (Hp : previews (output (split_to_batch re_compile text split_mode
                                   max_segments split_length pattern keep))
               = map (fun '(k, seg) => (Z.of_nat k + 1, shown seg))
                     (combine (seq 0 5) out)).
  { destruct (strip text) as [|c t] eqn:Hs.
    - rewrite split_to_batch_blank in * by exact Hs. cbn in Hout.
      injection Hout as <-. reflexivity.
    - assert (Hne : strip text <> []) by (rewrite Hs; discriminate).
      destruct (split_to_batch_parts _ _ _ _ _ _ _ _ Hne Hout)
        as (raw & segs & Hd & Hsn & Ht).
      rewrite (split_to_batch_log _ _ _ _ _ _ _ raw segs out Hne Hd Hsn Ht).
      rewrite !previews_app, previews_report.
      replace (previews (output (truncate segs max_segments)))
        with (@nil (Z * str))
        by (rewrite truncate_output; destruct (max_segments <? len segs);
            reflexivity).
      destruct (dispatch_output re_compile (strip text) split_mode split_length
                                pattern keep) as [-> | ->]; reflexivity. }
  rewrite Hp. split; [reflexivity|]. split.
  - rewrite length_map, length_combine, length_seq. reflexivity.
  - apply Forall_map. apply Forall_forall. intros [k seg] _. apply len_shown.
Qed.

Lemma summary_previews_witness :
  outcome (split_to_batch example_compile [97; 124; 98]%N mode_pipe 10 50 [] true)
  = Ok [[97%N]; [98%N]]
  /\ previews (output (split_to_batch example_compile [97; 124; 98]%N mode_pipe
                                      10 50 [] true))
     = [(1, [97%N]); (2, [98%N])].
Proof.
  split; [reflexivity|].
  destruct (summary_previews_returned_segments example_compile [97; 124; 98]%N
              mode_pipe 10 50 [] true [[97%N]; [98%N]] eq_refl) as [H _].
  exact H.
Defined.

(** ** Pipe strategy *)

Lemma split_char_not_nil sep s : split_char sep s <> [].
Proof.
  destruct s as [|c s]; simpl; [discriminate|].
  destruct (char_eqb c sep); [discriminate|].
  destruct (split_char sep s); discriminate.
Qed.

Lemma join_cons sep x pieces :
  pieces <> [] -> join sep (x :: pieces) = x ++ sep ++ join sep pieces.
Proof. destruct pieces; [congruence | reflexivity]. Qed.

Lemma join_split_char sep s : join [sep] (split_char sep s) = s.
Proof.
  induction s as [|c s IH]; [reflexivity|]. simpl split_char.
  destruct (char_eqb c sep) eqn:E.
  - apply N.eqb_eq in E. subst c.
    rewrite join_cons by apply split_char_not_nil. now rewrite IH.
  - pose proof (split_char_not_nil sep s) as Hne.
    destruct (split_char sep s) as [|h t]; [congruence|].
    destruct t as [|h' t]; simpl in *; now rewrite <- IH.
Qed.

Lemma split_char_pieces_clean sep s :
  Forall (fun piece => ~ In sep piece) (split_char sep s).
Proof.
  induction s as [|c s IH]; simpl.
  - constructor; [intros [] | constructor].
  - destruct (char_eqb c sep) eqn:E.
    + constructor; [intros [] | exact IH].
    + destruct (split_char sep s) as [|h t]; [repeat constructor|].
      * intros [->|[]]. unfold char_eqb in E. now rewrite N.eqb_refl in E.
      * inversion IH; subst. constructor; [|assumption].
        intros [->|Hin]; [|contradiction].
        unfold char_eqb in E. now rewrite N.eqb_refl in E.
Qed.

Lemma split_char_length sep s :
  length (split_char sep s) = S (count_char sep s).
Proof.
  unfold count_char. induction s as [|c s IH]; [reflexivity|]. simpl.
  replace (char_eqb sep c) with (char_eqb c sep)
    by (unfold char_eqb; apply N.eqb_sym).
  destruct (char_eqb c sep); simpl; [now rewrite IH|].
  pose proof (split_char_not_nil sep s) as Hne.
  destruct (split_char sep s); [congruence | exact IH].
Qed.

(** Splitting on the pipe loses nothing but the pipes: joining the pieces
    of [_split_by_pipe] with a pipe gives back the text, no piece contains a
    pipe, and there is one piece more than there are pipes. *)
Theorem pipe_split_round_trip text :
  join [pipe] (_split_by_pipe text) = text
  /\ Forall (fun piece => ~ In pipe piece) (_split_by_pipe text)
  /\ length (_split_by_pipe text) = S (count_char pipe text).
Proof.
  unfold _split_by_pipe. split; [apply join_split_char|]. split.
  - apply split_char_pieces_clean.
  - apply split_char_length.
Qed.

Lemma in_lstrip_inv x s : In x (lstrip s) -> In x s.
Proof.
  induction s as [|c s IH]; simpl; [auto|].
  destruct (isspace c); [auto | simpl; auto].
Qed.

Lemma in_strip_inv x s : In x (strip s) -> In x s.
Proof.
  unfold strip, rstrip. intros H.
  apply in_rev in H. apply in_lstrip_inv in H. apply in_rev in H.
  now apply in_lstrip_inv.
Qed.

Lemma pipe_segments_clean re_compile text max_segments split_length
      pattern keep :
  exists out,
    outcome (split_to_batch re_compile text mode_pipe max_segments split_length
                            pattern keep) = Ok out
    /\ Forall (fun seg => ~ In pipe seg) out.
Proof.
  destruct (strip text) as [|c t] eqn:Hs.
  { rewrite split_to_batch_blank by exact Hs. exists []. split; constructor. }
  rewrite split_to_batch_outcome by (rewrite Hs; discriminate).
  unfold dispatch. cbn [str_eqb mode_pipe char_eqb N.eqb Pos.eqb andb
    ret outcome snd rbind].
  rewrite strip_nonblank_some. cbn [rbind].
  assert (H : Forall (fun seg => ~ In pipe seg)
                     (filter truthy (map strip (_split_by_pipe (strip text))))).
  { apply Forall_forall. intros seg Hin. apply filter_In in Hin as [Hin _].
    apply in_map_iff in Hin as (piece & <- & Hin).
    pose proof (split_char_pieces_clean pipe (strip text)) as Hc.
    rewrite Forall_forall in Hc. intros Hp. apply (Hc piece Hin).
    now apply in_strip_inv. }
  destruct (outcome (truncate _ max_segments)) as [out|e] eqn:Ht.
  - exists out. split; [reflexivity|]. eapply truncate_keeps; eauto.
  - unfold truncate in Ht.
    destruct (max_segments <? len _); [rewrite outcome_bind in Ht|]; discriminate.
Qed.

(** No segment that the pipe strategy returns contains a pipe. *)
Theorem pipe_segments_have_no_pipe re_compile text max_segments split_length
        pattern keep out :
  outcome (split_to_batch re_compile text mode_pipe max_segments split_length
                          pattern keep) = Ok out ->
  Forall (fun seg => ~ In pipe seg) out.
Proof.
  intros Hout.
  destruct (pipe_segments_clean re_compile text max_segments split_length
                                pattern keep) as (out' & H1 & H2).
  rewrite H1 in Hout. now injection Hout as <-.
Qed.

Lemma pipe_segments_witness :
  outcome (split_to_batch example_compile [97; 124; 124; 32; 98; 124]%N mode_pipe
                          10 50 [] true) = Ok [[97%N]; [98%N]]
  /\ Forall (fun seg => ~ In pipe seg) [[97%N]; [98%N]].
Proof.
  split; [reflexivity|].
  apply (pipe_segments_have_no_pipe example_compile [97; 124; 124; 32; 98; 124]%N
           10 50 [] true).
  reflexivity.
Defined.

(** ** Intelligent strategy: what the third pass keeps *)

Lemma merge_fold_content l : forall f t f' t',
  fold_left merge_step l (f, t) = (f', t') ->
  concat f' ++ t' = concat f ++ t ++ concat (map strip l).
Proof.
  induction l as [|x l IH]; intros f t f' t'; simpl.
  - intros [= <- <-]. now rewrite app_nil_r.
  - destruct ((len t + len (strip x) <? 10) && truthy f).
    + intros H. apply IH in H. rewrite H. now rewrite <- !app_assoc.
    + intros H. apply IH in H. rewrite H.
      destruct t as [|c t]; cbn [truthy].
      * reflexivity.
      * rewrite concat_app. cbn [concat]. rewrite app_nil_r.
        now rewrite <- !app_assoc.
Qed.

(** The third pass neither drops nor reorders a character: its output
    elements, put end to end, are the trimmed refined segments put end to
    end. *)
Theorem merge_pass_keeps_content refined :
  concat (merge_short refined) = concat (map strip refined).
Proof.
  unfold merge_short.
  destruct (fold_left merge_step refined ([], [])) as [f t] eqn:E.
  apply merge_fold_content in E. cbn [concat app] in E. rewrite <- E.
  destruct t as [|c t]; cbn [truthy].
  - now rewrite app_nil_r.
  - rewrite concat_app. cbn [concat]. now rewrite app_nil_r.
Qed.

(** The third pass merges only into short elements: every output element
    is either one trimmed refined segment on its own, or has fewer than 10
    characters. *)
Theorem merged_elements_are_short refined :
  Forall (fun e => In e (map strip refined) \/ len e < 10) (merge_short refined).
Proof.
  unfold merge_short.
  assert (H : forall f t,
             fold_left merge_step refined ([], []) = (f, t) ->
             Forall (fun e => In e (map strip refined) \/ len e < 10) f
             /\ (In t (map strip refined) \/ len t < 10)).
  { induction refined as [|x pre IH] using rev_ind; intros f t.
    - cbn. intros [= <- <-]. split; [constructor | right; reflexivity].
    - rewrite fold_left_snoc.
      destruct (fold_left merge_step pre ([], [])) as [f0 t0].
      destruct (IH f0 t0 eq_refl) as [Hf Ht]. clear IH.
      assert (Hmono : forall e, In e (map strip pre) \/ len e < 10 ->
                           In e (map strip (pre ++ [x])) \/ len e < 10).
      { intros e [He|He]; [left | now right].
        rewrite map_app. apply in_or_app. now left. }
      assert (Hf' : Forall (fun e => In e (map strip (pre ++ [x])) \/ len e < 10) f0).
      { eapply Forall_impl; [|exact Hf]. exact Hmono. }
      unfold merge_step.
      destruct (len t0 + len (strip x) <? 10) eqn:Es; cbn [andb].
      + destruct (truthy f0).
        * intros [= <- <-]. split; [exact Hf'|]. right.
          apply Z.ltb_lt in Es. now rewrite len_app.
        * intros [= <- <-]. split.
          -- destruct (truthy t0); [|exact Hf'].
             apply Forall_app. split; [exact Hf'|]. constructor; [auto | constructor].
          -- left. rewrite map_app. apply in_or_app. right. now left.
      + intros [= <- <-]. split.
        * destruct (truthy t0); [|exact Hf'].
          apply Forall_app. split; [exact Hf'|]. constructor; [auto | constructor].
        * left. rewrite map_app. apply in_or_app. right. now left. }
  destruct (fold_left merge_step refined ([], [])) as [f t].
  destruct (H f t eq_refl) as [Hf Ht].
  destruct (truthy t); [|exact Hf].
  apply Forall_app. split; [exact Hf|]. constructor; [exact Ht | constructor].
Qed.

Lemma trimmed_iff s : trimmed s <-> clean_head s /\ clean_head (rev s).
Proof.
  unfold trimmed. split.
  - intros H. rewrite <- H. split.
    + unfold strip. pose proof (lstrip_clean_head s) as Hc.
      destruct (lstrip s) as [|c t]; [exact I|]. simpl in Hc.
      rewrite (rstrip_clean_cons _ _ Hc). exact Hc.
    + unfold strip, rstrip. rewrite rev_involutive. apply lstrip_clean_head.
  - intros [H1 H2]. unfold strip, rstrip.
    rewrite (lstrip_fixed _ H1), (lstrip_fixed _ H2). apply rev_involutive.
Qed.

Lemma trimmed_strip s : trimmed (strip s).
Proof. apply strip_idempotent. Qed.

Lemma trimmed_app a b : trimmed a -> trimmed b -> trimmed (a ++ b).
Proof.
  intros Ha Hb. apply trimmed_iff in Ha as [Ha1 Ha2].
  apply trimmed_iff in Hb as [Hb1 Hb2]. apply trimmed_iff. split.
  - destruct a; [exact Hb1 | exact Ha1].
  - rewrite rev_app_distr. destruct (rev b) eqn:E; [exact Ha2 | exact Hb2].
Qed.

(** The elements the third pass puts out are never empty and already
    trimmed. *)
Lemma merge_short_trimmed refined :
  Forall (fun e => e <> [] /\ trimmed e) (merge_short refined).
Proof.
  unfold merge_short.
  assert (H : forall f t,
             fold_left merge_step refined ([], []) = (f, t) ->
             Forall (fun e => e <> [] /\ trimmed e) f /\ trimmed t).
  { induction refined as [|x pre IH] using rev_ind; intros f t.
    - cbn. intros [= <- <-]. split; [constructor | reflexivity].
    - rewrite fold_left_snoc.
      destruct (fold_left merge_step pre ([], [])) as [f0 t0].
      destruct (IH f0 t0 eq_refl) as [Hf Ht]. clear IH.
      assert (Hflush : Forall (fun e => e <> [] /\ trimmed e)
                              (if truthy t0 then f0 ++ [t0] else f0)).
      { destruct t0 as [|c t0]; cbn [truthy]; [exact Hf|].
        apply Forall_app. split; [exact Hf|].
        constructor; [split; [discriminate | exact Ht] | constructor]. }
      unfold merge_step.
      destruct ((len t0 + len (strip x) <? 10) && truthy f0); intros [= <- <-].
      + split; [exact Hf|]. apply trimmed_app; [exact Ht | apply trimmed_strip].
      + split; [exact Hflush | apply trimmed_strip]. }
  destruct (fold_left merge_step refined ([], [])) as [f t].
  destruct (H f t eq_refl) as [Hf Ht].
  destruct t as [|c t]; cbn [truthy]; [exact Hf|].
  apply Forall_app. split; [exact Hf|].
  constructor; [split; [discriminate | exact Ht] | constructor].
Qed.

Lemma strip_nonblank_fixpoint (segs : list str) :
  Forall (fun e : str => e <> [] /\ trimmed e) segs ->
  strip_nonblank (map Some segs) = Ok segs.
Proof.
  intros H. rewrite strip_nonblank_some. f_equal.
  induction H as [|e segs [Hne Ht] _ IH]; [reflexivity|].
  cbn [map filter]. rewrite Ht. apply truthy_true in Hne. rewrite Hne.
  now rewrite IH.
Qed.

(** The intelligent strategy never raises, and what it returns needs no
    cleaning: its elements are non-empty and trimmed, so [split_to_batch]
    returns them as they are, cut to the first [max_segments]. *)
Theorem intelligent_result_passes_unchanged re_compile text max_segments
        split_length pattern keep :
  strip text <> [] ->
  0 <= max_segments ->
  exists segs,
    _split_intelligent (strip text) = Ok segs
    /\ Forall (fun e => e <> [] /\ trimmed e) segs
    /\ outcome (split_to_batch re_compile text mode_intelligent max_segments
                               split_length pattern keep)
       = Ok (firstn (Z.to_nat max_segments) segs).
Proof.
  intros Hne Hmax.
  destruct (intelligent_refined (strip text)) as (refined & Hi & _).
  exists (merge_short refined). split; [exact Hi|].
  pose proof (merge_short_trimmed refined) as Ht. split; [exact Ht|].
  rewrite split_to_batch_outcome by exact Hne.
  unfold dispatch. cbn [str_eqb mode_intelligent mode_pipe mode_punctuation
    mode_length mode_regex char_eqb N.eqb Pos.eqb andb].
  rewrite Hi. cbn [lift rbind outcome snd].
  rewrite (strip_nonblank_fixpoint _ Ht). cbn [rbind].
  now apply truncate_outcome.
Qed.

Lemma intelligent_result_witness :
  strip [97; 12290; 98; 12290]%N <> []
  /\ 0 <= 10
  /\ exists segs,
       _split_intelligent (strip [97; 12290; 98; 12290]%N) = Ok segs
       /\ outcome (split_to_batch example_compile [97; 12290; 98; 12290]%N
                                  mode_intelligent 10 50 [] true)
          = Ok (firstn (Z.to_nat 10) segs).
Proof.
  assert (H1 : strip [97; 12290; 98; 12290]%N <> []) by discriminate.
  assert (H2 : 0 <= 10) by lia.
  split; [exact H1|]. split; [exact H2|].
  destruct (intelligent_result_passes_unchanged example_compile
              [97; 12290; 98; 12290]%N 10 50 [] true H1 H2)
    as (segs & Ha & _ & Hb).
  exists segs. split; [exact Ha | exact Hb].
Defined.

(** ** Matches in order, and the text cut at them *)

Lemma compile_regex_well_behaved r : well_behaved (compile_regex r).
Proof.
  intros before i rest adv j c H. cbn [compile_regex p_attempt] in H.
  apply attempt_sound in H as (s & rest' & -> & _ & ->).
  rewrite length_app. lia.
Qed.

Lemma chain_weaken ms n : forall last last',
  (last' <= last)%nat -> chain last ms n -> chain last' ms n.
Proof.
  destruct ms as [|m ms]; simpl; intros last last' Hle H; [lia|].
  destruct H as (H1 & H2 & H3). repeat split; [lia | lia | exact H3].
Qed.

(** The matches enumerated by [scan] follow one another and stay within
    the text. *)
Lemma scan_chain p :
  well_behaved p ->
  forall rest before i skip,
    (skip <= length rest)%nat ->
    chain (i + skip) (scan p before i rest skip) (i + length rest).
Proof.
  intros Hwb. induction rest as [|x rest IH]; intros before i skip Hskip.
  - simpl in Hskip. assert (skip = O) by lia. subst skip. simpl.
    destruct (p_attempt p before i [] false) as [[j c]|] eqn:E; [|simpl; lia].
    apply Hwb in E. simpl in E. assert (j = i) by lia. subst j.
    rewrite Nat.eqb_refl.
    destruct (p_attempt p before i [] true) as [[j' c']|] eqn:E'.
    + apply Hwb in E'. simpl in E'. simpl. lia.
    + simpl. lia.
  - assert (Hnext : forall sk, (sk <= length rest)%nat ->
                          chain (S i + sk) (scan p (x :: before) (S i) rest sk)
                                (i + length (x :: rest))).
    { intros sk Hsk. replace (i + length (x :: rest))%nat
        with (S i + length rest)%nat by (simpl; lia).
      now apply IH. }
    simpl scan. destruct skip as [|sk].
    + assert (H0 : chain (i + 0) (scan p (x :: before) (S i) rest 0)
                         (i + length (x :: rest))).
      { eapply chain_weaken; [|apply (Hnext O); lia]. lia. }
      destruct (p_attempt p before i (x :: rest) false) as [[j c]|] eqn:E;
        [|exact H0].
      pose proof (Hwb _ _ _ _ _ _ E) as Hj. simpl length in Hj.
      destruct (Nat.eqb j i) eqn:Eji.
      * apply Nat.eqb_eq in Eji. subst j. cbn [chain m_start m_end].
        split; [lia|]. split; [lia|].
        destruct (p_attempt p before i (x :: rest) true) as [[j' c']|] eqn:E'.
        -- pose proof (Hwb _ _ _ _ _ _ E') as Hj'. simpl length in Hj'.
           cbn [chain m_start m_end]. split; [lia|]. split; [lia|].
           eapply chain_weaken; [|apply (Hnext (j' - S i)%nat); lia]. lia.
        -- eapply chain_weaken; [|exact H0]. lia.
      * apply Nat.eqb_neq in Eji. cbn [chain m_start m_end].
        split; [lia|]. split; [lia|].
        eapply chain_weaken; [|apply (Hnext (j - S i)%nat); lia]. lia.
    + replace (i + S sk)%nat with (S i + sk)%nat by lia.
      apply Hnext. simpl in Hskip. lia.
Qed.

Lemma finditer_chain p text :
  well_behaved p -> chain 0 (finditer p text) (length text).
Proof.
  intros Hwb. unfold finditer.
  apply (scan_chain p Hwb text [] O O). lia.
Qed.

Lemma substr_skipn (text : str) a b :
  (a <= b)%nat -> substr text a b ++ skipn b text = skipn a text.
Proof.
  intros Hab. unfold substr.
  replace (skipn b text) with (skipn (b - a) (skipn a text))
    by (rewrite skipn_skipn; f_equal; lia).
  apply firstn_skipn.
Qed.

(** Cutting a text at matches that follow one another loses nothing. *)
Lemma weave_chain text ms : forall last,
  chain last ms (length text) -> weave text last ms = skipn last text.
Proof.
  induction ms as [|m ms IH]; intros last; simpl; [reflexivity|].
  intros (H1 & H2 & H3). rewrite (IH _ H3).
  rewrite (substr_skipn text _ _ H2). now apply substr_skipn.
Qed.

(** ** White space is all that trimming removes *)

Lemma visible_app a b : visible (a ++ b) = visible a ++ visible b.
Proof. apply filter_app. Qed.

Lemma visible_lstrip s : visible (lstrip s) = visible s.
Proof.
  induction s as [|c s IH]; [reflexivity|]. cbn [lstrip].
  destruct (isspace c) eqn:E; [|reflexivity].
  rewrite IH. unfold visible. cbn [filter]. now rewrite E.
Qed.

Lemma visible_rev s : visible (rev s) = rev (visible s).
Proof.
  induction s as [|c s IH]; [reflexivity|]. cbn [rev].
  rewrite visible_app, IH. unfold visible. cbn [filter].
  destruct (isspace c); cbn [negb rev]; [now rewrite app_nil_r | reflexivity].
Qed.

Lemma visible_strip s : visible (strip s) = visible s.
Proof.
  unfold strip, rstrip.
  now rewrite visible_rev, visible_lstrip, visible_rev, rev_involutive,
    visible_lstrip.
Qed.

Lemma visible_spaces s :
  Forall (fun x => isspace x = true) s -> visible s = [].
Proof.
  induction 1 as [|x s Hx _ IH]; [reflexivity|].
  unfold visible in *. cbn [filter]. now rewrite Hx.
Qed.

(** Line 95 removes white space only. *)
Lemma visible_strip_nonblank (pieces : list str) :
  visible (concat (filter truthy (map strip pieces))) = visible (concat pieces).
Proof.
  induction pieces as [|s pieces IH]; [reflexivity|].
  cbn [map filter concat]. rewrite visible_app, <- IH, <- (visible_strip s).
  destruct (strip s) as [|c t]; cbn [truthy]; [reflexivity|].
  cbn [concat]. now rewrite visible_app.
Qed.

(** A call whose log has no truncation warning returns all the candidates
    of line 95. *)
Lemma untruncated_result re_compile text split_mode max_segments split_length
      pattern keep out :
  strip text <> [] ->
  outcome (split_to_batch re_compile text split_mode max_segments split_length
                          pattern keep) = Ok out ->
  truncations (output (split_to_batch re_compile text split_mode max_segments
                                      split_length pattern keep)) = [] ->
  exists raw,
    outcome (dispatch re_compile (strip text) split_mode split_length pattern keep)
    = Ok raw
    /\ strip_nonblank raw = Ok out.
Proof.
  intros Hne Hout Hlog.
  destruct (split_to_batch_parts _ _ _ _ _ _ _ _ Hne Hout)
    as (raw & segs & Hd & Hsn & Ht).
  exists raw. split; [exact Hd|].
  rewrite (split_to_batch_log _ _ _ _ _ _ _ raw segs out Hne Hd Hsn Ht) in Hlog.
  rewrite !truncations_app in Hlog.
  apply app_eq_nil in Hlog as [_ Hlog]. apply app_eq_nil in Hlog as [Hlog _].
  unfold truncate in Ht, Hlog.
  destruct (max_segments <? len segs); [discriminate Hlog|].
  cbn in Ht. injection Ht as <-. exact Hsn.
Qed.

(** ** Nothing but white space (and separators) is lost *)

Lemma stretches_weave text ms : forall last,
  Forall (fun m => visible (substr text (m_start m) (m_end m)) = []) ms ->
  visible (concat (map (fun '(a, b) => substr text a b)
                       (combine (last :: map m_end ms)
                                (map m_start ms ++ [length text]))))
  = visible (weave text last ms).
Proof.
  induction ms as [|m ms IH]; intros last Hall.
  - cbn. rewrite app_nil_r. unfold substr.
    rewrite firstn_all2; [reflexivity|]. rewrite length_skipn. lia.
  - inversion Hall as [|? ? Hm Hms]; subst.
    cbn [map combine app concat weave]. rewrite !visible_app, Hm.
    cbn [app]. f_equal. now apply IH.
Qed.

Lemma punctuation_split_matches_blank text :
  Forall (fun m => visible (substr text (m_start m) (m_end m)) = [])
         (finditer punctuation_split_pattern text).
Proof.
  unfold punctuation_split_pattern.
  eapply Forall_impl; [|apply finditer_lang].
  intros m (before & s1 & s2 & -> & (-> & _) & Hs2). cbn [app].
  now apply visible_spaces.
Qed.

(** Without [keep_delimiter] the punctuation strategy removes white space
    only: its pieces, put end to end, hold every other character of the text,
    delimiters included, in order. *)
Lemma punctuation_split_keeps_visible text :
  exists pieces,
    _split_by_punctuation text false = map Some pieces
    /\ visible (concat pieces) = visible text.
Proof.
  exists (stretches_between text (finditer punctuation_split_pattern text)).
  split.
  - unfold _split_by_punctuation. now apply re_split_stretches.
  - unfold stretches_between.
    rewrite (stretches_weave text _ O (punctuation_split_matches_blank text)).
    rewrite weave_chain; [reflexivity|].
    apply finditer_chain. apply compile_regex_well_behaved.
Qed.

(** End to end: when the punctuation strategy runs without
    [keep_delimiter] and no truncation warning is printed, the characters
    other than white space of the returned segments are those of the text. *)
Lemma punctuation_split_returns_all_visible re_compile text max_segments
        split_length pattern out :
  outcome (split_to_batch re_compile text mode_punctuation max_segments
                          split_length pattern false) = Ok out ->
  truncations (output (split_to_batch re_compile text mode_punctuation
                                      max_segments split_length pattern false))
  = [] ->
  visible (concat out) = visible text.
Proof.
  intros Hout Hlog. rewrite <- (visible_strip text).
  destruct (strip text) as [|c t] eqn:Hs.
  { rewrite split_to_batch_blank in Hout by exact Hs. cbn in Hout.
    now injection Hout as <-. }
  assert (Hne : strip text <> []) by (rewrite Hs; discriminate).
  destruct (untruncated_result _ _ _ _ _ _ _ _ Hne Hout Hlog) as (raw & Hd & Hsn).
  rewrite Hs in Hd. unfold dispatch in Hd.
  cbn [str_eqb mode_punctuation mode_pipe char_eqb N.eqb Pos.eqb andb
       ret outcome snd] in Hd.
  injection Hd as <-.
  destruct (punctuation_split_keeps_visible (c :: t)) as (pieces & Hp & Hv).
  change (re_split punctuation_split_pattern (c :: t))
    with (_split_by_punctuation (c :: t) false) in Hsn.
  rewrite Hp, strip_nonblank_some in Hsn. injection Hsn as <-.
  now rewrite visible_strip_nonblank.
Qed.

(** End to end: when the punctuation strategy runs without
    [keep_delimiter] and no truncation warning is printed, no part of the
    sentences is lost: the characters of the text that are neither white
    space nor delimiters all occur in the returned segments, in order, and
    nothing else does. *)
Theorem punctuation_split_loses_no_text re_compile text max_segments
        split_length pattern out :
  outcome (split_to_batch re_compile text mode_punctuation max_segments
                          split_length pattern false) = Ok out ->
  truncations (output (split_to_batch re_compile text mode_punctuation
                                      max_segments split_length pattern false))
  = [] ->
  filter (fun c => negb (mem_char c delimiters)) (visible (concat out))
  = filter (fun c => negb (mem_char c delimiters)) (visible text).
Proof.
  intros Hout Hlog. f_equal.
  eapply punctuation_split_returns_all_visible; eauto.
Qed.

Lemma punctuation_split_text_witness :
  outcome (split_to_batch example_compile [97; 46; 32; 98; 33]%N mode_punctuation
                          10 50 [] false) = Ok [[97; 46]; [98; 33]]%N
  /\ filter (fun c => negb (mem_char c delimiters))
            (visible (concat [[97; 46]; [98; 33]]%N))
     = filter (fun c => negb (mem_char c delimiters))
              (visible [97; 46; 32; 98; 33]%N).
Proof.
  split; [reflexivity|].
  apply (punctuation_split_loses_no_text example_compile
           [97; 46; 32; 98; 33]%N 10 50 []); reflexivity.
Defined.

Lemma split_by_length_concat text n :
  1 <= n -> exists chunks, _split_by_length text n = Ok chunks /\ concat chunks = text.
Proof.
  intros Hn. rewrite (split_by_length_chunks text _ Hn).
  eexists. split; [reflexivity|]. rewrite concat_chunks. apply firstn_all2.
  destruct (0 <? len text) eqn:E.
  - apply Z.ltb_lt in E.
    pose proof (Z.div_mod (len text - 1) n ltac:(lia)) as Hd.
    pose proof (Z.mod_pos_bound (len text - 1) n ltac:(lia)) as Hm.
    assert (0 <= (len text - 1) / n) by (apply Z.div_pos; lia).
    unfold len in *. nia.
  - apply Z.ltb_ge in E. unfold len in E. lia.
Qed.

(** End to end: with [split_length >= 1] and no truncation warning, the
    characters other than white space of the segments returned by the
    fixed-length strategy, read in order, are exactly the characters other
    than white space of the text. *)
Theorem fixed_length_returns_all_visible re_compile text max_segments
        split_length pattern keep out :
  1 <= split_length ->
  outcome (split_to_batch re_compile text mode_length max_segments split_length
                          pattern keep) = Ok out ->
  truncations (output (split_to_batch re_compile text mode_length max_segments
                                      split_length pattern keep)) = [] ->
  visible (concat out) = visible text.
Proof.
  intros Hn Hout Hlog. rewrite <- (visible_strip text).
  destruct (strip text) as [|c t] eqn:Hs.
  { rewrite split_to_batch_blank in Hout by exact Hs. cbn in Hout.
    now injection Hout as <-. }
  assert (Hne : strip text <> []) by (rewrite Hs; discriminate).
  destruct (untruncated_result _ _ _ _ _ _ _ _ Hne Hout Hlog) as (raw & Hd & Hsn).
  rewrite Hs in Hd. unfold dispatch in Hd.
  cbn [str_eqb mode_length mode_pipe mode_punctuation char_eqb N.eqb Pos.eqb andb]
    in Hd.
  destruct (split_by_length_concat (c :: t) split_length Hn) as (chunks & Hc & Hcat).
  rewrite Hc in Hd. cbn [lift rbind outcome snd] in Hd. injection Hd as <-.
  rewrite strip_nonblank_some in Hsn. injection Hsn as <-.
  now rewrite visible_strip_nonblank, Hcat.
Qed.

Lemma fixed_length_visible_witness :
  1 <= 3
  /\ outcome (split_to_batch example_compile [97; 98; 32; 99; 100]%N mode_length
                             10 3 [] true) = Ok [[97; 98]; [99; 100]]%N
  /\ visible (concat [[97; 98]; [99; 100]]%N) = visible [97; 98; 32; 99; 100]%N.
Proof.
  assert (H : 1 <= 3) by lia.
  split; [exact H|]. split; [reflexivity|].
  apply (fixed_length_returns_all_visible example_compile [97; 98; 32; 99; 100]%N
           10 3 [] true _ H); reflexivity.
Defined.

Lemma concat_split_char sep s : concat (split_char sep s) = without sep s.
Proof.
  induction s as [|c s IH]; [reflexivity|]. unfold without in *. cbn [split_char filter].
  destruct (char_eqb c sep); cbn [negb concat app]; [exact IH|].
  destruct (split_char sep s) as [|h t]; cbn [concat app] in *.
  - now rewrite <- IH.
  - now rewrite <- IH.
Qed.

Lemma visible_without c s : visible (without c s) = without c (visible s).
Proof.
  unfold visible, without. induction s as [|x s IH]; [reflexivity|].
  cbn [filter].
  destruct (char_eqb x c) eqn:Ec, (isspace x) eqn:Es; cbn [negb filter];
    rewrite ?Ec, ?Es; cbn [negb]; now rewrite IH.
Qed.

(** End to end: with the pipe strategy and no truncation warning, the
    characters other than white space of the returned segments, read in
    order, are exactly the characters of the text that are neither white
    space nor pipes. *)
Theorem pipe_returns_all_visible re_compile text max_segments split_length
        pattern keep out :
  outcome (split_to_batch re_compile text mode_pipe max_segments split_length
                          pattern keep) = Ok out ->
  truncations (output (split_to_batch re_compile text mode_pipe max_segments
                                      split_length pattern keep)) = [] ->
  visible (concat out) = without pipe (visible text).
Proof.
  intros Hout Hlog. rewrite <- (visible_strip text).
  destruct (strip text) as [|c t] eqn:Hs.
  { rewrite split_to_batch_blank in Hout by exact Hs. cbn in Hout.
    now injection Hout as <-. }
  assert (Hne : strip text <> []) by (rewrite Hs; discriminate).
  destruct (untruncated_result _ _ _ _ _ _ _ _ Hne Hout Hlog) as (raw & Hd & Hsn).
  rewrite Hs in Hd. unfold dispatch in Hd.
  cbn [str_eqb mode_pipe char_eqb N.eqb Pos.eqb andb ret outcome snd] in Hd.
  injection Hd as <-.
  rewrite strip_nonblank_some in Hsn. injection Hsn as <-.
  rewrite visible_strip_nonblank. unfold _split_by_pipe.
  now rewrite concat_split_char, visible_without.
Qed.

Lemma pipe_visible_witness :
  outcome (split_to_batch example_compile [97; 32; 124; 124; 98]%N mode_pipe
                          10 50 [] true) = Ok [[97%N]; [98%N]]
  /\ visible (concat [[97%N]; [98%N]]) = without pipe (visible [97; 32; 124; 124; 98]%N).
Proof.
  split; [reflexivity|].
  apply (pipe_returns_all_visible example_compile [97; 32; 124; 124; 98]%N
           10 50 [] true); reflexivity.
Defined.

(** ** The pattern [[^l]+[l]+], exactly *)

Lemma take_drop_while f s : take_while f s ++ drop_while f s = s.
Proof.
  induction s as [|x s IH]; [reflexivity|]. simpl.
  destruct (f x); [simpl; now rewrite IH | reflexivity].
Qed.

Lemma take_while_all f s : Forall (fun c => f c = true) (take_while f s).
Proof.
  induction s as [|x s IH]; simpl; [constructor|].
  destruct (f x) eqn:E; constructor; assumption.
Qed.

Lemma drop_while_head f s :
  match drop_while f s with [] => True | y :: _ => f y = false end.
Proof.
  induction s as [|x s IH]; simpl; [exact I|].
  destruct (f x) eqn:E; [exact IH | exact E].
Qed.

Lemma drop_while_nil f s :
  drop_while f s = [] -> Forall (fun c => f c = true) s.
Proof.
  intros H. rewrite <- (take_drop_while f s), H, app_nil_r.
  apply take_while_all.
Qed.

(** Once the continuation accepts every later position, a greedy
    repetition takes the longest run. *)
Lemma greedy_accepting cs s : forall b j caps (kf : cont) res i0,
  (forall b' j' s', (i0 < j')%nat -> kf b' j' s' caps = Some (res j')) ->
  (i0 < j)%nat ->
  greedy cs b j s caps kf = Some (res (j + length (take_while (in_cset cs) s))%nat).
Proof.
  induction s as [|x s IH]; intros b j caps kf res i0 Hk Hj; simpl.
  - rewrite Nat.add_0_r. now apply Hk.
  - destruct (in_cset cs x).
    + rewrite (IH _ _ _ _ res i0 Hk) by lia. simpl. now rewrite Nat.add_succ_r.
    + rewrite Nat.add_0_r. now apply Hk.
Qed.

Lemma greedy_runs l r : forall b i caps (kf : cont) res i0,
  (forall b' j' s', (i0 < j')%nat -> kf b' j' s' caps = Some (res j')) ->
  (i0 < i)%nat ->
  greedy (NoneOf l) b i r caps (fun b' j s c => run (Plus (OneOf l)) b' j s c kf)
  = match drop_while (fun c => negb (mem_char c l)) r with
    | y :: s' =>
        Some (res (i + length (take_while (fun c => negb (mem_char c l)) r)
                   + S (length (take_while (fun c => mem_char c l) s')))%nat)
    | [] => None
    end.
Proof.
  induction r as [|x r IH]; intros b i caps kf res i0 Hk Hi; [reflexivity|].
  cbn [greedy in_cset drop_while take_while].
  destruct (mem_char x l) eqn:Ex; cbn [negb].
  - cbn [run in_cset]. rewrite Ex.
    rewrite (greedy_accepting (OneOf l) r _ _ _ kf res i0 Hk) by lia.
    change (in_cset (OneOf l)) with (fun c => mem_char c l).
    cbn [length]. f_equal. f_equal. lia.
  - rewrite (IH _ _ _ kf res i0 Hk) by lia.
    destruct (drop_while (fun c => negb (mem_char c l)) r) as [|y s'].
    + cbn [run in_cset]. now rewrite Ex.
    + cbn [length]. f_equal. f_equal. lia.
Qed.

Lemma run_runs l before i rest caps (kf : cont) res :
  (forall b' j' s', (i < j')%nat -> kf b' j' s' caps = Some (res j')) ->
  run (runs_regex l) before i rest caps kf
  = match runs_end l rest with
    | Some n => Some (res (i + n)%nat)
    | None => None
    end.
Proof.
  intros Hk. unfold runs_regex, runs_end. cbn [run in_cset].
  destruct rest as [|x r]; [reflexivity|].
  destruct (mem_char x l); cbn [negb]; [reflexivity|].
  rewrite (greedy_runs l r _ _ _ kf res i Hk) by lia.
  destruct (drop_while (fun c => negb (mem_char c l)) r); [reflexivity|].
  f_equal. f_equal. lia.
Qed.

Lemma runs_end_positive l rest n : runs_end l rest = Some n -> (0 < n)%nat.
Proof.
  unfold runs_end. destruct rest as [|x r]; [discriminate|].
  destruct (mem_char x l); [discriminate|].
  destruct (drop_while _ r); [discriminate|]. intros [= <-]. lia.
Qed.

Lemma is_runs_plain l : is_runs l (compile_regex (runs_regex l)).
Proof.
  exists (fun _ _ => []). intros before i rest adv.
  cbn [compile_regex p_attempt]. unfold attempt.
  apply (run_runs l before i rest [] _ (fun j => (j, []))).
  intros b' j' s' Hj. replace (Nat.eqb j' i) with false
    by (symmetry; apply Nat.eqb_neq; lia).
  now rewrite andb_false_r.
Qed.

Lemma is_runs_group l : is_runs l (compile_regex (Grp 1 (runs_regex l))).
Proof.
  exists (fun a b => [(1%nat, (a, b))]). intros before i rest adv.
  cbn [compile_regex p_attempt]. unfold attempt. cbn [run].
  apply (run_runs l before i rest [] _ (fun j => (j, [(1%nat, (i, j))]))).
  intros b' j' s' Hj. replace (Nat.eqb j' i) with false
    by (symmetry; apply Nat.eqb_neq; lia).
  now rewrite andb_false_r.
Qed.

Lemma drop_while_all f s :
  Forall (fun c => f c = true) s -> drop_while f s = [].
Proof.
  induction 1 as [|x s Hx _ IH]; [reflexivity|]. simpl. now rewrite Hx.
Qed.

Lemma skipn_take_while f s :
  skipn (length (take_while f s)) s = drop_while f s.
Proof.
  induction s as [|x s IH]; [reflexivity|]. simpl.
  destruct (f x); [exact IH | reflexivity].
Qed.

Lemma length_take_while f s : (length (take_while f s) <= length s)%nat.
Proof.
  induction s as [|x s IH]; simpl; [lia|]. destruct (f x); simpl; lia.
Qed.

Lemma notin_all l (s : str) :
  Forall (fun c => mem_char c l = false) s ->
  Forall (fun c => negb (mem_char c l) = true) s.
Proof.
  intros H. eapply Forall_impl; [|exact H]. cbn. intros c ->. reflexivity.
Qed.

Lemma runs_end_none_all l rest :
  Forall (fun c => mem_char c l = false) rest -> runs_end l rest = None.
Proof.
  intros H. unfold runs_end. destruct rest as [|x r]; [reflexivity|].
  inversion H as [|? ? Hx Hr]; subst. rewrite Hx.
  now rewrite (drop_while_all _ _ (notin_all l r Hr)).
Qed.

Lemma runs_end_none_clean l rest :
  starts_clean l rest -> runs_end l rest = None ->
  Forall (fun c => mem_char c l = false) rest.
Proof.
  unfold runs_end, starts_clean. destruct rest as [|x r]; [constructor|].
  intros Hx. rewrite Hx.
  destruct (drop_while (fun c => negb (mem_char c l)) r) eqn:E; [|discriminate].
  intros _. constructor; [exact Hx|].
  apply drop_while_nil in E. eapply Forall_impl; [|exact E].
  cbn. intros c Hc. now apply negb_true_iff in Hc.
Qed.

Lemma skipn_app_length {A} (a b : list A) k :
  skipn (length a + k) (a ++ b) = skipn k b.
Proof. induction a as [|x a IH]; [reflexivity | exact IH]. Qed.

Lemma runs_end_split l rest n :
  runs_end l rest = Some n ->
  (0 < n <= length rest)%nat /\ starts_clean l (skipn n rest).
Proof.
  unfold runs_end. destruct rest as [|x r]; [discriminate|].
  destruct (mem_char x l); [discriminate|].
  destruct (drop_while (fun c => negb (mem_char c l)) r) as [|y s'] eqn:E;
    [discriminate|].
  intros [= <-].
  pose proof (take_drop_while (fun c => negb (mem_char c l)) r) as Hr.
  rewrite E in Hr.
  pose proof (length_take_while (fun c => mem_char c l) s') as Hs'.
  assert (Hlen : length r
                 = (length (take_while (fun c => negb (mem_char c l)) r)
                    + S (length s'))%nat).
  { rewrite <- Hr at 1. rewrite length_app. reflexivity. }
  split; [cbn [length]; lia|].
  cbn [plus skipn].
  rewrite <- Hr at 2. rewrite skipn_app_length. cbn [skipn].
  rewrite skipn_take_while.
  pose proof (drop_while_head (fun c => mem_char c l) s') as Hh.
  unfold starts_clean. destruct (drop_while (fun c => mem_char c l) s'); auto.
Qed.

Lemma scan_runs_none l p :
  is_runs l p ->
  forall rest before i skip,
    Forall (fun c => mem_char c l = false) rest -> scan p before i rest skip = [].
Proof.
  intros [capf Hp]. induction rest as [|x rest IH]; intros before i skip Hall.
  - simpl. destruct skip; [|reflexivity]. now rewrite Hp.
  - inversion Hall as [|? ? Hx Hr]; subst. simpl. destruct skip; [|now apply IH].
    rewrite Hp, (runs_end_none_all l (x :: rest) Hall). now apply IH.
Qed.

(** From a position where the text does not begin with a character of
    [l], the matches of [[^l]+[l]+] tile the text: each starts where the one
    before ended, and what is left after the last holds no character of
    [l]. *)
Lemma scan_tiling l p :
  is_runs l p ->
  forall rest before i skip,
    (skip <= length rest)%nat ->
    starts_clean l (skipn skip rest) ->
    tiling l (i + skip) (skipn skip rest) (scan p before i rest skip).
Proof.
  intros Hruns. pose proof Hruns as [capf Hp].
  induction rest as [|x rest IH]; intros before i skip Hskip Hclean.
  - simpl in Hskip. assert (skip = O) by lia. subst skip. simpl.
    rewrite Hp. simpl. constructor.
  - destruct skip as [|sk].
    + cbn [skipn] in *. rewrite Nat.add_0_r. cbn [scan]. rewrite Hp.
      destruct (runs_end l (x :: rest)) as [n|] eqn:E.
      * destruct (runs_end_split _ _ _ E) as [[Hn1 Hn2] Hc].
        replace (Nat.eqb (i + n) i) with false
          by (symmetry; apply Nat.eqb_neq; lia).
        cbn [tiling m_start m_end]. split; [reflexivity|]. split; [lia|].
        replace (i + n - i)%nat with n by lia. split; [exact Hn2|].
        destruct n as [|n']; [lia|]. cbn [skipn] in *.
        replace (i + S n' - S i)%nat with n' by lia.
        replace (i + S n')%nat with (S i + n')%nat by lia.
        apply IH; [cbn [length] in Hn2; lia | exact Hc].
      * rewrite (scan_runs_none l p Hruns).
        -- cbn [tiling]. now apply runs_end_none_clean.
        -- pose proof (runs_end_none_clean _ _ Hclean E) as Hall.
           now inversion Hall.
    + cbn [skipn scan] in *. replace (i + S sk)%nat with (S i + sk)%nat by lia.
      apply IH; [cbn [length] in Hskip; lia | exact Hclean].
Qed.

Lemma tiling_concat l text ms : forall i,
  tiling l i (skipn i text) ms ->
  exists tail,
    skipn i text
    = concat (map (fun m => substr text (m_start m) (m_end m)) ms) ++ tail
    /\ Forall (fun c => mem_char c l = false) tail.
Proof.
  induction ms as [|m ms IH]; intros i; cbn [tiling map concat].
  - intros H. exists (skipn i text). auto.
  - intros (Hs & Hlt & Hle & Ht).
    rewrite skipn_skipn in Ht.
    replace (m_end m - i + i)%nat with (m_end m) in Ht by lia.
    destruct (IH _ Ht) as (tail & Heq & Htail).
    exists tail. split; [|exact Htail].
    rewrite <- app_assoc, <- Heq, Hs. apply eq_sym, substr_skipn. lia.
Qed.

Lemma is_runs_captures l p capf text :
  (forall before i rest adv,
      p_attempt p before i rest adv =
      match runs_end l rest with
      | Some n => Some ((i + n)%nat, capf i (i + n)%nat)
      | None => None
      end) ->
  Forall (fun m => m_caps m = capf (m_start m) (m_end m)) (finditer p text).
Proof.
  intros Hp.
  apply (finditer_matches (fun _ i j c => c = capf i j)).
  intros before i rest adv j c _. rewrite Hp.
  destruct (runs_end l rest); [|discriminate]. now intros [= <- <-].
Qed.

(** [findall] returns the matched texts, also when the whole pattern is
    wrapped in a group. *)
Lemma findall_runs_plain l text :
  re_findall (compile_regex (runs_regex l)) text
  = map (fun m => substr text (m_start m) (m_end m))
        (finditer (compile_regex (runs_regex l)) text).
Proof. reflexivity. Qed.

Lemma findall_runs_group l text :
  re_findall (compile_regex (Grp 1 (runs_regex l))) text
  = map (fun m => substr text (m_start m) (m_end m))
        (finditer (compile_regex (Grp 1 (runs_regex l))) text).
Proof.
  assert (Ha : forall before i rest adv,
             p_attempt (compile_regex (Grp 1 (runs_regex l))) before i rest adv =
             match runs_end l rest with
             | Some n => Some ((i + n)%nat, [(1%nat, (i, (i + n)%nat))])
             | None => None
             end).
  { intros before i rest adv. cbn [compile_regex p_attempt]. unfold attempt.
    cbn [run].
    apply (run_runs l before i rest [] _ (fun j => (j, [(1%nat, (i, j))]))).
    intros b' j' s' Hj. replace (Nat.eqb j' i) with false
      by (symmetry; apply Nat.eqb_neq; lia).
    now rewrite andb_false_r. }
  pose proof (is_runs_captures l _ (fun a b => [(1%nat, (a, b))]) text Ha) as Hc.
  rewrite Forall_forall in Hc.
  unfold re_findall. cbn [compile_regex p_groups groups runs_regex Nat.eqb plus].
  apply map_ext_in. intros m Hin. unfold group.
  change (finditer {| p_groups := 1;
                      p_attempt := attempt (Grp 1 (Cat (Plus (NoneOf l))
                                                       (Plus (OneOf l)))) |} text)
    with (finditer (compile_regex (Grp 1 (runs_regex l))) text) in Hin.
  rewrite (Hc m Hin). cbn [capture Nat.eqb]. reflexivity.
Qed.

(** On a text that does not begin with a character of [l], the matches
    that [findall] returns for [[^l]+[l]+] are consecutive pieces of the text
    from its start, and the rest after them holds no character of [l]. *)
Lemma findall_runs_tiles l p text :
  is_runs l p ->
  re_findall p text
  = map (fun m => substr text (m_start m) (m_end m)) (finditer p text) ->
  starts_clean l text ->
  exists tail,
    text = concat (re_findall p text) ++ tail
    /\ Forall (fun c => mem_char c l = false) tail.
Proof.
  intros Hruns Hfind Hclean. rewrite Hfind.
  apply (tiling_concat l text (finditer p text) O).
  apply (scan_tiling l p Hruns text [] O O); [lia | exact Hclean].
Qed.

Lemma sum_len_concat segments : sum_len segments = len (concat segments).
Proof.
  unfold sum_len.
  assert (H : forall acc, fold_left (fun a (s : str) => a + len s) segments acc
                          = acc + len (concat segments)).
  { induction segments as [|s segments IH]; intros acc; cbn [fold_left concat].
    - unfold len. cbn. lia.
    - rewrite IH, len_app. lia. }
  rewrite H. lia.
Qed.

(** Lines 130-134 and 161-165, when the segments are a prefix of the text:
    the appended segment is the trimmed rest, if it is not blank. *)
Lemma remainder_appended text (segments : list str) tail :
  text = concat segments ++ tail ->
  (if sum_len segments <? len text then
     if truthy (strip (slice_from text (sum_len segments)))
     then segments ++ [strip (slice_from text (sum_len segments))]
     else segments
   else segments)
  = segments ++ (if truthy (strip tail) then [strip tail] else []).
Proof.
  intros Ht. rewrite sum_len_concat.
  assert (Hlen : len text = len (concat segments) + len tail)
    by (rewrite Ht at 1; apply len_app).
  destruct (Z.ltb_spec (len (concat segments)) (len text)) as [Hlt|Hge].
  - assert (Hs : slice_from text (len (concat segments)) = tail).
    { unfold slice_from, clamp.
      destruct (len (concat segments) <? 0) eqn:E;
        [apply Z.ltb_lt in E; unfold len in E; lia|].
      rewrite Z.min_l by lia. unfold len. rewrite Nat2Z.id.
      rewrite Ht at 1. rewrite <- (Nat.add_0_r (length (concat segments))).
      apply skipn_app_length. }
    rewrite Hs. destruct (truthy (strip tail)); [reflexivity|].
    now rewrite app_nil_r.
  - assert (tail = []).
    { destruct tail; [reflexivity|]. unfold len in *. cbn [length] in Hlen. lia. }
    subst tail. cbn. now rewrite app_nil_r.
Qed.

(** ** Punctuation strategy with [keep_delimiter], on a text that does not
    begin with a delimiter *)

Lemma visible_remainder tail :
  visible (concat (if truthy (strip tail) then [strip tail] else []))
  = visible tail.
Proof.
  rewrite <- (visible_strip tail).
  destruct (strip tail); cbn [truthy concat]; [reflexivity|].
  now rewrite app_nil_r.
Qed.

Lemma punctuation_keep_tiles_text_aux text :
  starts_clean delimiters text ->
  exists segments tail,
    text = concat segments ++ tail
    /\ _split_by_punctuation text true
       = map Some (segments ++ (if truthy (strip tail) then [strip tail] else [])).
Proof.
  intros Hclean.
  destruct (findall_runs_tiles delimiters punctuation_keep_pattern text
              (is_runs_plain delimiters) (findall_runs_plain delimiters text) Hclean)
    as (tail & Htext & _).
  exists (re_findall punctuation_keep_pattern text), tail.
  split; [exact Htext|].
  unfold _split_by_punctuation. f_equal. now apply remainder_appended.
Qed.

(** On a text that does not begin with a delimiter, the punctuation
    strategy with [keep_delimiter] cuts the text into consecutive pieces: the
    matched segments, each a run of other characters closed by a run of
    delimiters, cover the text from its start, and the one segment appended
    after them, when there is one, is exactly the rest of the text, trimmed;
    that rest holds no delimiter. *)
Theorem punctuation_keep_tiles_text text :
  starts_clean delimiters text ->
  exists segments tail,
    text = concat segments ++ tail
    /\ Forall (fun seg =>
                 exists body marks,
                   seg = body ++ marks /\ body <> [] /\ marks <> []
                   /\ Forall (fun x => mem_char x delimiters = false) body
                   /\ Forall (fun x => mem_char x delimiters = true) marks)
              segments
    /\ Forall (fun c => mem_char c delimiters = false) tail
    /\ _split_by_punctuation text true
       = map Some (segments ++ (if truthy (strip tail) then [strip tail] else [])).
Proof.
  intros Hclean.
  destruct (findall_runs_tiles delimiters punctuation_keep_pattern text
              (is_runs_plain delimiters) (findall_runs_plain delimiters text) Hclean)
    as (tail & Htext & Htail).
  exists (re_findall punctuation_keep_pattern text), tail.
  split; [exact Htext|]. split; [apply punctuation_keep_segments_shape|].
  split; [exact Htail|].
  unfold _split_by_punctuation. f_equal. now apply remainder_appended.
Qed.

Lemma punctuation_keep_tiles_witness :
  starts_clean delimiters [97; 46; 46; 32; 98; 33; 99]%N
  /\ _split_by_punctuation [97; 46; 46; 32; 98; 33; 99]%N true
     = [Some [97; 46; 46]; Some [32; 98; 33]; Some [99]]%N.
Proof.
  assert (H : starts_clean delimiters [97; 46; 46; 32; 98; 33; 99]%N)
    by reflexivity.
  split; [exact H|].
  destruct (punctuation_keep_tiles_text [97; 46; 46; 32; 98; 33; 99]%N H)
    as (segments & tail & _ & _ & _ & _).
  reflexivity.
Defined.

(** End to end: when the trimmed text does not begin with a delimiter and
    no truncation warning is printed, the characters other than white space
    of the segments returned by the punctuation strategy with
    [keep_delimiter], read in order, are exactly the characters other than
    white space of the text: none is dropped and none is repeated. *)
Theorem punctuation_keep_returns_all_visible re_compile text max_segments
        split_length pattern out :
  starts_clean delimiters (strip text) ->
  outcome (split_to_batch re_compile text mode_punctuation max_segments
                          split_length pattern true) = Ok out ->
  truncations (output (split_to_batch re_compile text mode_punctuation
                                      max_segments split_length pattern true))
  = [] ->
  visible (concat out) = visible text.
Proof.
  intros Hclean Hout Hlog. rewrite <- (visible_strip text).
  destruct (strip text) as [|c t] eqn:Hs.
  { rewrite split_to_batch_blank in Hout by exact Hs. cbn in Hout.
    now injection Hout as <-. }
  assert (Hne : strip text <> []) by (rewrite Hs; discriminate).
  destruct (untruncated_result _ _ _ _ _ _ _ _ Hne Hout Hlog) as (raw & Hd & Hsn).
  rewrite Hs in Hd. unfold dispatch in Hd.
  cbn [str_eqb mode_punctuation mode_pipe char_eqb N.eqb Pos.eqb andb
       ret outcome snd] in Hd.
  assert (raw = _split_by_punctuation (c :: t) true) as -> by congruence.
  destruct (punctuation_keep_tiles_text_aux (c :: t) Hclean)
    as (segments & tail & Htext & Hp).
  rewrite Hp, strip_nonblank_some in Hsn. injection Hsn as <-.
  rewrite visible_strip_nonblank, concat_app, visible_app, visible_remainder.
  rewrite <- visible_app. now rewrite <- Htext.
Qed.

Lemma punctuation_keep_visible_witness :
  starts_clean delimiters (strip [97; 46; 32; 98; 33; 99]%N)
  /\ outcome (split_to_batch example_compile [97; 46; 32; 98; 33; 99]%N
                             mode_punctuation 10 50 [] true)
     = Ok [[97; 46]; [98; 33]; [99]]%N
  /\ visible (concat [[97; 46]; [98; 33]; [99]]%N)
     = visible [97; 46; 32; 98; 33; 99]%N.
Proof.
  assert (H : starts_clean delimiters (strip [97; 46; 32; 98; 33; 99]%N))
    by reflexivity.
  split; [exact H|]. split; [reflexivity|].
  apply (punctuation_keep_returns_all_visible example_compile
           [97; 46; 32; 98; 33; 99]%N 10 50 [] _ H); reflexivity.
Defined.

(** ** Intelligent strategy, on a text that does not begin with terminal
    punctuation *)

Lemma split_loop_cut text ms : forall last,
  Forall (fun m => m_caps m = [(1%nat, (m_start m, m_end m))]) ms ->
  split_loop 1 text last ms = map Some (cut text last ms).
Proof.
  induction ms as [|m ms IH]; intros last Hall; [reflexivity|].
  inversion Hall as [|? ? Hm Hms]; subst.
  cbn [split_loop cut map seq app]. unfold group at 1. rewrite Hm.
  cbn [capture Nat.eqb]. now rewrite IH.
Qed.

Lemma concat_cut text ms : forall last,
  concat (cut text last ms) = weave text last ms.
Proof.
  induction ms as [|m ms IH]; intros last; cbn [cut concat weave].
  - apply app_nil_r.
  - now rewrite IH.
Qed.

Lemma keep_nonblank_some (l : list str) :
  keep_nonblank (map Some l) = Ok (filter (fun s => truthy (strip s)) l).
Proof.
  induction l as [|s l IH]; [reflexivity|]. cbn [map keep_nonblank filter].
  rewrite IH. cbn [rbind]. destruct (truthy (strip s)); reflexivity.
Qed.

Lemma visible_keep_nonblank (l : list str) :
  visible (concat (filter (fun s => truthy (strip s)) l)) = visible (concat l).
Proof.
  induction l as [|s l IH]; [reflexivity|]. cbn [filter concat].
  rewrite visible_app, <- IH.
  destruct (truthy (strip s)) eqn:E; cbn [concat].
  - now rewrite visible_app.
  - apply truthy_false in E. rewrite <- (visible_strip s), E. reflexivity.
Qed.

Lemma visible_concat_strip (l : list str) :
  visible (concat (map strip l)) = visible (concat l).
Proof.
  induction l as [|s l IH]; [reflexivity|]. cbn [map concat].
  now rewrite !visible_app, visible_strip, IH.
Qed.

(** The second pass cuts a long segment without losing a character. *)
Lemma secondary_split_visible seg :
  exists subs,
    keep_nonblank (re_split secondary_pattern seg) = Ok subs
    /\ visible (concat subs) = visible seg.
Proof.
  assert (Ha : forall before i rest adv,
             p_attempt secondary_pattern before i rest adv =
             match runs_end commas rest with
             | Some n => Some ((i + n)%nat, [(1%nat, (i, (i + n)%nat))])
             | None => None
             end).
  { intros before i rest adv. unfold secondary_pattern.
    cbn [compile_regex p_attempt]. unfold attempt. cbn [run].
    apply (run_runs commas before i rest [] _ (fun j => (j, [(1%nat, (i, j))]))).
    intros b' j' s' Hj. replace (Nat.eqb j' i) with false
      by (symmetry; apply Nat.eqb_neq; lia).
    now rewrite andb_false_r. }
  pose proof (is_runs_captures commas secondary_pattern
                (fun a b => [(1%nat, (a, b))]) seg Ha) as Hc.
  exists (filter (fun s => truthy (strip s))
                 (cut seg O (finditer secondary_pattern seg))).
  unfold re_split.
  change (p_groups secondary_pattern) with 1%nat.
  rewrite (split_loop_cut seg _ O Hc), keep_nonblank_some.
  split; [reflexivity|].
  rewrite visible_keep_nonblank, concat_cut, weave_chain; [reflexivity|].
  apply finditer_chain. apply compile_regex_well_behaved.
Qed.

Lemma refine_visible segments refined :
  refine segments = Ok refined ->
  visible (concat refined) = visible (concat segments).
Proof.
  revert refined. induction segments as [|seg segments IH]; intros refined.
  - cbn. now intros [= <-].
  - cbn [refine concat]. destruct (refine segments) as [tl|e].
    + specialize (IH tl eq_refl). destruct (100 <? len seg).
      * destruct (secondary_split_visible seg) as (subs & -> & Hv).
        cbn [rbind]. intros [= <-]. now rewrite concat_app, !visible_app, Hv, IH.
      * cbn [rbind]. intros [= <-]. cbn [app concat].
        now rewrite !visible_app, IH.
    + destruct (100 <? len seg);
        [destruct (keep_nonblank (re_split secondary_pattern seg))|];
        cbn [rbind]; discriminate.
Qed.

Lemma merge_fold_visible refined :
  visible (concat (merge_short refined)) = visible (concat refined).
Proof.
  unfold merge_short.
  destruct (fold_left merge_step refined ([], [])) as [f t] eqn:E.
  apply merge_fold_content in E. cbn [concat app] in E.
  rewrite <- (visible_concat_strip refined), <- E.
  destruct t as [|c t]; cbn [truthy].
  - now rewrite app_nil_r.
  - rewrite concat_app. cbn [concat]. now rewrite app_nil_r.
Qed.

Lemma intelligent_visible text :
  starts_clean terminals text ->
  exists segs,
    _split_intelligent text = Ok segs
    /\ visible (concat segs) = visible text
    /\ Forall (fun e : str => e <> [] /\ trimmed e) segs.
Proof.
  intros Hclean.
  destruct (findall_runs_tiles terminals primary_pattern text
              (is_runs_group terminals) (findall_runs_group terminals text) Hclean)
    as (tail & Htext & _).
  unfold _split_intelligent.
  rewrite (remainder_appended text _ tail Htext).
  set (primary := re_findall primary_pattern text
                  ++ (if truthy (strip tail) then [strip tail] else [])).
  destruct (refine_total primary) as [refined Hr]. rewrite Hr. cbn [rbind].
  exists (merge_short refined). split; [reflexivity|].
  split; [|apply merge_short_trimmed].
  rewrite merge_fold_visible.
  rewrite (refine_visible _ _ Hr). subst primary.
  rewrite concat_app, visible_app, visible_remainder, <- visible_app.
  now rewrite <- Htext.
Qed.

(** End to end: when the trimmed text does not begin with terminal
    punctuation and no truncation warning is printed, the characters other
    than white space of the segments returned by the intelligent strategy,
    read in order, are exactly the characters other than white space of the
    text: the three passes drop none, repeat none and keep the order. *)
Theorem intelligent_returns_all_visible re_compile text max_segments
        split_length pattern keep out :
  starts_clean terminals (strip text) ->
  outcome (split_to_batch re_compile text mode_intelligent max_segments
                          split_length pattern keep) = Ok out ->
  truncations (output (split_to_batch re_compile text mode_intelligent
                                      max_segments split_length pattern keep))
  = [] ->
  visible (concat out) = visible text.
Proof.
  intros Hclean Hout Hlog. rewrite <- (visible_strip text).
  destruct (strip text) as [|c t] eqn:Hs.
  { rewrite split_to_batch_blank in Hout by exact Hs. cbn in Hout.
    now injection Hout as <-. }
  assert (Hne : strip text <> []) by (rewrite Hs; discriminate).
  destruct (untruncated_result _ _ _ _ _ _ _ _ Hne Hout Hlog) as (raw & Hd & Hsn).
  rewrite Hs in Hd. unfold dispatch in Hd.
  cbn [str_eqb mode_intelligent mode_pipe mode_punctuation mode_length mode_regex
       char_eqb N.eqb Pos.eqb andb] in Hd.
  destruct (intelligent_visible (c :: t) Hclean) as (segs & Hi & Hv & Ht).
  rewrite Hi in Hd. cbn [lift rbind outcome snd] in Hd.
  assert (raw = map Some segs) as -> by congruence.
  rewrite (strip_nonblank_fixpoint _ Ht) in Hsn. injection Hsn as <-.
  exact Hv.
Qed.

Lemma intelligent_visible_witness :
  starts_clean terminals (strip [97; 12290; 32; 98; 33; 99]%N)
  /\ outcome (split_to_batch example_compile [97; 12290; 32; 98; 33; 99]%N
                             mode_intelligent 10 50 [] true)
     = Ok [[97; 12290]; [98; 33; 99]]%N
  /\ visible (concat [[97; 12290]; [98; 33; 99]]%N)
     = visible [97; 12290; 32; 98; 33; 99]%N.
Proof.
  assert (H : starts_clean terminals (strip [97; 12290; 32; 98; 33; 99]%N))
    by reflexivity.
  split; [exact H|]. split; [reflexivity|].
  apply (intelligent_returns_all_visible example_compile
           [97; 12290; 32; 98; 33; 99]%N 10 50 [] true _ H); reflexivity.
Defined.

(** ** A text with nothing to split at *)

Lemma single_candidate re_compile text split_mode max_segments split_length
      pattern keep s :
  strip text <> [] ->
  strip s = strip text ->
  outcome (dispatch re_compile (strip text) split_mode split_length pattern keep)
  = Ok [Some s] ->
  1 <= max_segments ->
  outcome (split_to_batch re_compile text split_mode max_segments split_length
                          pattern keep) = Ok [strip text].
Proof.
  intros Hne Hs Hd Hmax.
  rewrite split_to_batch_outcome by exact Hne. rewrite Hd.
  cbn [rbind strip_nonblank]. rewrite Hs.
  apply truthy_true in Hne. rewrite Hne. cbn [rbind].
  unfold truncate. replace (max_segments <? len [strip text]) with false;
    [reflexivity|].
  symmetry. apply Z.ltb_ge. unfold len. cbn [length]. lia.
Qed.

Lemma split_char_absent sep s : ~ In sep s -> split_char sep s = [s].
Proof.
  induction s as [|c s IH]; [reflexivity|]. intros Hn. cbn [split_char].
  destruct (char_eqb c sep) eqn:E.
  - apply N.eqb_eq in E. subst c. exfalso. apply Hn. now left.
  - rewrite IH; [reflexivity|]. intros Hin. apply Hn. now right.
Qed.

(** A text without a pipe comes back from the pipe strategy as one
    segment, the trimmed text. *)
Theorem pipe_free_text_is_one_segment re_compile text max_segments split_length
        pattern keep :
  strip text <> [] ->
  ~ In pipe text ->
  1 <= max_segments ->
  outcome (split_to_batch re_compile text mode_pipe max_segments split_length
                          pattern keep) = Ok [strip text].
Proof.
  intros Hne Hpipe Hmax.
  apply (single_candidate _ _ _ _ _ _ _ (strip text) Hne (strip_idempotent text));
    [|exact Hmax].
  unfold dispatch. cbn [str_eqb mode_pipe char_eqb N.eqb Pos.eqb andb ret outcome snd].
  unfold _split_by_pipe. rewrite split_char_absent; [reflexivity|].
  intros Hin. apply Hpipe. now apply in_strip_inv.
Qed.

Lemma pipe_free_witness :
  strip [32; 97; 98; 32]%N <> []
  /\ ~ In pipe [32; 97; 98; 32]%N
  /\ 1 <= 10
  /\ outcome (split_to_batch example_compile [32; 97; 98; 32]%N mode_pipe 10 50 []
                             true) = Ok [strip [32; 97; 98; 32]%N].
Proof.
  assert (H1 : strip [32; 97; 98; 32]%N <> []) by discriminate.
  assert (H2 : ~ In pipe [32; 97; 98; 32]%N).
  { simpl. intros [H|[H|[H|[H|[]]]]]; discriminate H. }
  assert (H3 : 1 <= 10) by lia.
  split; [exact H1|]. split; [exact H2|]. split; [exact H3|].
  apply (pipe_free_text_is_one_segment example_compile [32; 97; 98; 32]%N 10 50 []
           true H1 H2 H3).
Defined.

(** A trimmed text of at most [split_length] characters comes back from
    the fixed-length strategy as one segment, the trimmed text. *)
Theorem short_text_is_one_chunk re_compile text max_segments split_length
        pattern keep :
  strip text <> [] ->
  len (strip text) <= split_length ->
  1 <= max_segments ->
  outcome (split_to_batch re_compile text mode_length max_segments split_length
                          pattern keep) = Ok [strip text].
Proof.
  intros Hne Hlen Hmax.
  apply (single_candidate _ _ _ _ _ _ _ (strip text) Hne (strip_idempotent text));
    [|exact Hmax].
  assert (Hpos : 0 < len (strip text)).
  { unfold len. destruct (strip text); [congruence | cbn [length]; lia]. }
  unfold dispatch. cbn [str_eqb mode_length mode_pipe mode_punctuation char_eqb
    N.eqb Pos.eqb andb].
  rewrite split_by_length_chunks by lia.
  replace (0 <? len (strip text)) with true by (symmetry; apply Z.ltb_lt; lia).
  rewrite Z.div_small by lia.
  change (Z.to_nat (0 + 1)) with 1%nat. cbn [seq map lift rbind outcome snd].
  unfold chunk. cbn [Nat.mul skipn]. rewrite firstn_all2; [reflexivity|].
  unfold len in Hlen. lia.
Qed.

Lemma short_text_witness :
  strip [97; 98; 99]%N <> []
  /\ len (strip [97; 98; 99]%N) <= 50
  /\ 1 <= 10
  /\ outcome (split_to_batch example_compile [97; 98; 99]%N mode_length 10 50 []
                             true) = Ok [strip [97; 98; 99]%N].
Proof.
  assert (H1 : strip [97; 98; 99]%N <> []) by discriminate.
  assert (H2 : len (strip [97; 98; 99]%N) <= 50) by (vm_compute; discriminate).
  assert (H3 : 1 <= 10) by lia.
  split; [exact H1|]. split; [exact H2|]. split; [exact H3|].
  apply (short_text_is_one_chunk example_compile [97; 98; 99]%N 10 50 [] true
           H1 H2 H3).
Defined.

Lemma slice_from_start {A} (l : list A) : slice_from l 0 = l.
Proof.
  unfold slice_from, clamp. cbn [Z.ltb Z.compare].
  rewrite Z.min_l by (unfold len; lia). reflexivity.
Qed.

Lemma scan_split_none : forall rest before i skip,
  starts_clean delimiters before ->
  Forall (fun c => mem_char c delimiters = false) rest ->
  scan punctuation_split_pattern before i rest skip = [].
Proof.
  assert (Ha : forall before i rest adv,
             starts_clean delimiters before ->
             p_attempt punctuation_split_pattern before i rest adv = None).
  { intros before i rest adv Hb. unfold punctuation_split_pattern.
    cbn [compile_regex p_attempt]. unfold attempt. cbn [run in_cset].
    destruct before as [|p b]; [reflexivity|]. cbn [starts_clean] in Hb.
    now rewrite Hb. }
  induction rest as [|x rest IH]; intros before i skip Hb Hall.
  - cbn [scan]. destruct skip; [|reflexivity]. now rewrite Ha.
  - inversion Hall as [|? ? Hx Hr]; subst. cbn [scan].
    destruct skip; [rewrite Ha by exact Hb|]; now apply IH.
Qed.

(** A text without any delimiter comes back from the punctuation strategy
    as one segment, the trimmed text, with either value of
    [keep_delimiter]. *)
Theorem delimiter_free_text_is_one_segment re_compile text max_segments
        split_length pattern keep :
  strip text <> [] ->
  Forall (fun c => mem_char c delimiters = false) text ->
  1 <= max_segments ->
  outcome (split_to_batch re_compile text mode_punctuation max_segments
                          split_length pattern keep) = Ok [strip text].
Proof.
  intros Hne Hfree Hmax.
  assert (Hfree' : Forall (fun c => mem_char c delimiters = false) (strip text)).
  { rewrite Forall_forall in *. intros c Hc. apply Hfree. now apply in_strip_inv. }
  destruct keep.
  - apply (single_candidate _ _ _ _ _ _ _ (strip (strip text)) Hne);
      [now rewrite !strip_idempotent | | exact Hmax].
    unfold dispatch. cbn [str_eqb mode_punctuation mode_pipe char_eqb N.eqb
      Pos.eqb andb ret outcome snd].
    unfold _split_by_punctuation, re_findall, finditer.
    rewrite (scan_runs_none delimiters punctuation_keep_pattern
               (is_runs_plain delimiters) _ _ _ _ Hfree').
    cbn [map sum_len fold_left app].
    assert (Hpos : (0 <? len (strip text)) = true).
    { apply Z.ltb_lt. unfold len. destruct (strip text); [congruence|].
      cbn [length]. lia. }
    rewrite Hpos, slice_from_start.
    rewrite strip_idempotent. apply truthy_true in Hne. now rewrite Hne.
  - apply (single_candidate _ _ _ _ _ _ _ (strip text) Hne (strip_idempotent text));
      [|exact Hmax].
    unfold dispatch. cbn [str_eqb mode_punctuation mode_pipe char_eqb N.eqb
      Pos.eqb andb ret outcome snd].
    unfold _split_by_punctuation, re_split, finditer.
    rewrite (scan_split_none (strip text) [] O O I Hfree'). reflexivity.
Qed.

Lemma delimiter_free_witness :
  strip [32; 97; 98]%N <> []
  /\ Forall (fun c => mem_char c delimiters = false) [32; 97; 98]%N
  /\ 1 <= 10
  /\ outcome (split_to_batch example_compile [32; 97; 98]%N mode_punctuation 10 50
                             [] true) = Ok [strip [32; 97; 98]%N].
Proof.
  assert (H1 : strip [32; 97; 98]%N <> []) by discriminate.
  assert (H2 : Forall (fun c => mem_char c delimiters = false) [32; 97; 98]%N)
    by (repeat constructor).
  assert (H3 : 1 <= 10) by lia.
  split; [exact H1|]. split; [exact H2|]. split; [exact H3|].
  apply (delimiter_free_text_is_one_segment example_compile [32; 97; 98]%N 10 50 []
           true H1 H2 H3).
Defined.
